(** * BottleNet: a shallow embedding of the bottle-inspection sketch

    The program is one Arduino sketch, [BottleNet_April5.ino].  It is
    embedded here function by function:

    - hardware effects (pin writes, delays, servo commands, LCD and serial
      output) are recorded in a chronological [trace] of [Event]s kept in a
      [World], together with the levels last driven on each output pin;
      the calls into the Servo, LiquidCrystal_I2C, Wire and Serial
      libraries are recorded, not interpreted;
    - hardware inputs (the IR level and the millisecond counter read by
      [bottleDetected], the echo durations returned by [pulseIn], the ADC
      values returned by [analogRead]) are oracles stored in the [World]
      and consumed in order; time passes only through these readings;
    - [int] is the 16-bit two's complement integer of the AVR target,
      [long]/[unsigned long] are 32 bits, and [float]/[double] are both
      IEEE 754 binary32 with round-to-nearest-even, computed with the
      Standard Library's executable specification [SpecFloat] at
      precision 24 and maximal exponent 128;
    - the three [for] loops are defined by well-founded recursion on the
      distance of the loop variable to its bound; the [while] loop of
      [loop()], which need not terminate, takes fuel. *)

From Stdlib Require Import ZArith Lia SpecFloat.
From stdpp Require Import base option list strings gmap.
From Equations Require Import Equations.

Local Open Scope Z_scope.

(** ** Machine integers *)

(** [int] on AVR: 16 bits, two's complement; arithmetic wraps. *)
Definition int16 (x : Z) : Z := (x + 2 ^ 15) mod 2 ^ 16 - 2 ^ 15.

(** [long]: 32 bits, two's complement. *)
Definition int32 (x : Z) : Z := (x + 2 ^ 31) mod 2 ^ 32 - 2 ^ 31.

(** [unsigned long]: 32 bits; subtraction wraps modulo 2^32. *)
Definition uint32 (x : Z) : Z := x mod 2 ^ 32.

(** ** Binary32 floating point *)

Module F32.

Definition prec : Z := 24.
Definition emax : Z := 128.

Definition float : Type := spec_float.

(** Conversion of an integer to [float] (round to nearest even). *)
Definition of_Z (n : Z) : float := binary_normalize prec emax n 0 false.

Definition mul : float -> float -> float := SFmul prec emax.
Definition div : float -> float -> float := SFdiv prec emax.
Definition sub : float -> float -> float := SFsub prec emax.

(** The C comparisons: each is false as soon as an operand is NaN. *)
Definition leb : float -> float -> bool := SFleb.
Definition ltb : float -> float -> bool := SFltb.
Definition gtb (x y : float) : bool := SFltb y x.

Definition is_nan (x : float) : bool :=
  match x with S754_nan => true | _ => false end.

(** Neither zero, nor infinite, nor NaN. *)
Definition finite (x : float) : Prop := exists s m e, x = S754_finite s m e.

(** The literal [n / 10^k] written in decimal, rounded once to binary32. *)
Definition decimal (n : Z) (pow10 : Z) : float := div (of_Z n) (of_Z pow10).

End F32.

Abbreviation float := F32.float.

(** ** Constants of the sketch *)

Definition HIGH : bool := true.
Definition LOW : bool := false.
Definition INPUT : bool := false.
Definition OUTPUT : bool := true.

(** [A0] comes from the board's pin table; 14 on the Uno. *)
Definition A0 : Z := 14.

Definition SERVO_PIN : Z := 11.
Definition SERVO_OPEN_ANGLE : Z := 180.
Definition SERVO_CLOSED_ANGLE : Z := 0.

Definition IR_SENSOR_PIN : Z := 2.
Definition CAP_SENSOR_PIN : Z := A0.
Definition TRIG_PIN : Z := 9.
Definition ECHO_PIN : Z := 10.

Definition BUZZER_PIN : Z := 8.
Definition GREEN_LED : Z := 5.
Definition RED_LED : Z := 6.

Definition SMALL_MAX : float := Eval vm_compute in F32.of_Z 15.
Definition MEDIUM_MAX : float := Eval vm_compute in F32.of_Z 25.
Definition CAP_WATER_THRESHOLD : Z := 500.
Definition SENSOR_HEIGHT : float := Eval vm_compute in F32.of_Z 40.

(** The literals [0.0343], [2] (converted) and [0.0]. *)
Definition lit_0_0343 : float := Eval vm_compute in F32.decimal 343 10000.
Definition lit_2 : float := Eval vm_compute in F32.of_Z 2.
Definition lit_0_0 : float := S754_zero false.

(** Arduino's [max] is the macro [((a)>(b)?(a):(b))]. *)
Definition max_macro (a b : float) : float := if F32.gtb a b then a else b.

(** ** The world: inputs, static variables, outputs *)

(** What one call of [bottleDetected] reads: the raw IR level, the value
    [millis()] returns on line 102 (read only when the level changed) and
    the value [millis()] returns on line 105. *)
Record Tick := mkTick { raw : bool; t_edge : Z; t_now : Z }.

(** The two [static] locals of [bottleDetected]. *)
Record Debounce := mkDebounce { lastDebounce : Z; lastState : bool }.

Inductive Event :=
| EPinMode (pin : Z) (mode : bool)
| EDigitalWrite (pin : Z) (level : bool)
| EDigitalRead (pin : Z) (level : bool)
| EAnalogRead (pin : Z) (value : Z)
| EPulseIn (pin : Z) (level : bool) (us : Z)
| EDelay (ms : Z)
| EDelayMicroseconds (us : Z)
| EServoAttach (pin : Z)
| EServoWrite (angle : Z)
| ESerialBegin (baud : Z)
| ESerialPrint (s : string)
| ESerialPrintFloat (x : float)
| ESerialPrintln (s : string)
| EWireBegin
| ELcdInit
| ELcdBacklight
| ELcdClear
| ELcdSetCursor (col row : Z)
| ELcdPrint (s : string)
| ELcdPrintFloat (x : float) (digits : Z).

Record World := mkWorld {
  ir_feed : nat -> Tick;   ir_n : nat;
  echo_feed : nat -> Z;    echo_n : nat;
  adc_feed : nat -> Z;     adc_n : nat;
  debounce : Debounce;
  pins : gmap Z bool;
  trace : list Event
}.

(** ** The hardware monad *)

Definition HW (A : Type) : Type := World -> A * World.

#[global] Instance HW_ret : MRet HW := fun A a w => (a, w).
#[global] Instance HW_bind : MBind HW :=
  fun A B f m w => let '(a, w1) := m w in f a w1.

Definition exec {A} (m : HW A) (w : World) : World := snd (m w).
Definition result {A} (m : HW A) (w : World) : A := fst (m w).

(** What an output event does to the pin levels. *)
Definition drive (e : Event) (p : gmap Z bool) : gmap Z bool :=
  match e with
  | EDigitalWrite pin level => <[pin := level]> p
  | _ => p
  end.

Definition emit (e : Event) : HW () := fun w =>
  (tt, mkWorld (ir_feed w) (ir_n w) (echo_feed w) (echo_n w)
         (adc_feed w) (adc_n w) (debounce w) (drive e (pins w))
         (trace w ++ [e])).

Definition digitalWrite (pin : Z) (level : bool) : HW () :=
  emit (EDigitalWrite pin level).

Definition analogRead (pin : Z) : HW Z := fun w =>
  let v := adc_feed w (adc_n w) in
  (v, mkWorld (ir_feed w) (ir_n w) (echo_feed w) (echo_n w)
        (adc_feed w) (S (adc_n w)) (debounce w) (pins w)
        (trace w ++ [EAnalogRead pin v])).

Definition pulseIn (pin : Z) (level : bool) : HW Z := fun w =>
  let v := echo_feed w (echo_n w) in
  (v, mkWorld (ir_feed w) (ir_n w) (echo_feed w) (S (echo_n w))
        (adc_feed w) (adc_n w) (debounce w) (pins w)
        (trace w ++ [EPulseIn pin level v])).

Definition pinMode (pin : Z) (mode : bool) : HW () := emit (EPinMode pin mode).
Definition delay (ms : Z) : HW () := emit (EDelay ms).
Definition delayMicroseconds (us : Z) : HW () := emit (EDelayMicroseconds us).
Definition servo_attach (pin : Z) : HW () := emit (EServoAttach pin).
Definition servo_write (angle : Z) : HW () := emit (EServoWrite angle).
Definition lcd_clear : HW () := emit ELcdClear.
Definition lcd_setCursor (col row : Z) : HW () := emit (ELcdSetCursor col row).
Definition lcd_print (s : string) : HW () := emit (ELcdPrint s).
Definition lcd_print_float (x : float) (digits : Z) : HW () :=
  emit (ELcdPrintFloat x digits).
Definition serial_print (s : string) : HW () := emit (ESerialPrint s).
Definition serial_print_float (x : float) : HW () := emit (ESerialPrintFloat x).
Definition serial_println (s : string) : HW () := emit (ESerialPrintln s).

(** ** Feedback signals *)

(** [duration] is an [int]; [delay] takes an [unsigned long], so the
    argument is converted modulo 2^32 (a negative duration becomes a wait
    of weeks). *)
Definition beep (duration : Z) : HW () :=
  digitalWrite BUZZER_PIN HIGH;;
  delay (uint32 duration);;
  digitalWrite BUZZER_PIN LOW.

Definition startupBeep : HW () := beep 100;; delay 50;; beep 100.
Definition acceptBeep : HW () := beep 200;; delay 100;; beep 200.
Definition rejectBeep : HW () := beep 1000.

(** ** Gate actuator *)

(** Termination measures of the two sweeps: how far the loop variable is
    from leaving the range its condition tests. *)
Definition room_above (hi pos : Z) : nat := Z.to_nat (hi + 1 - pos).
Definition room_below (lo pos : Z) : nat := Z.to_nat (pos + 1 - lo).

Arguments room_above : simpl never.
Arguments room_below : simpl never.
Arguments int16 : simpl never.

(** [for (int pos = ...; pos <= SERVO_OPEN_ANGLE; pos += 2)], entered with
    the loop variable at [pos]. *)
Equations? openGate_from (pos : Z) : HW ()
  by wf (room_above SERVO_OPEN_ANGLE pos) lt :=
  openGate_from pos with decide (pos <= SERVO_OPEN_ANGLE) := {
    | left _ =>
        servo_write pos;;
        delay 20;;
        openGate_from (int16 (pos + 2))
    | right _ => mret tt }.
Proof.
  unfold room_above, SERVO_OPEN_ANGLE, int16 in *.
  pose proof (Z.mod_pos_bound (pos + 2 + 2 ^ 15) (2 ^ 16)).
  destruct (decide (- 2 ^ 15 <= pos + 2)); [rewrite Z.mod_small|]; lia.
Qed.

Definition openGate : HW () := openGate_from SERVO_CLOSED_ANGLE.

(** [for (int pos = ...; pos >= SERVO_CLOSED_ANGLE; pos -= 2)]. *)
Equations? closeGate_from (pos : Z) : HW ()
  by wf (room_below SERVO_CLOSED_ANGLE pos) lt :=
  closeGate_from pos with decide (SERVO_CLOSED_ANGLE <= pos) := {
    | left _ =>
        servo_write pos;;
        delay 20;;
        closeGate_from (int16 (pos - 2))
    | right _ => mret tt }.
Proof.
  unfold room_below, SERVO_CLOSED_ANGLE, int16 in *.
  pose proof (Z.mod_pos_bound (pos - 2 + 2 ^ 15) (2 ^ 16)).
  destruct (decide (pos - 2 < 2 ^ 15)); [rewrite Z.mod_small|]; lia.
Qed.

Definition closeGate : HW () := closeGate_from SERVO_OPEN_ANGLE.

(** ** Sensors *)

Definition measureBottleHeight : HW float :=
  digitalWrite TRIG_PIN HIGH;;
  delayMicroseconds 10;;
  digitalWrite TRIG_PIN LOW;;
  echo ← pulseIn ECHO_PIN HIGH;
  let duration := int32 echo in
  let distance := F32.div (F32.mul (F32.of_Z duration) lit_0_0343) lit_2 in
  mret (max_macro (F32.sub SENSOR_HEIGHT distance) lit_0_0).

Definition classifyBottleSize (height : float) : string :=
  if F32.leb height SMALL_MAX then "Small"
  else if F32.leb height MEDIUM_MAX then "Medium"
  else "Large".

(** [for (int i = 0; i < 5; i++) { avg += analogRead(...); delay(10); }],
    entered with the loop variable at [i]; returns [avg] at loop exit. *)
Equations? sample_from (i : Z) (avg : Z) : HW Z
  by wf (room_above 4 i) lt :=
  sample_from i avg with decide (i < 5) := {
    | left _ =>
        v ← analogRead CAP_SENSOR_PIN;
        delay 10;;
        sample_from (int16 (i + 1)) (int16 (avg + v))
    | right _ => mret avg }.
Proof.
  unfold room_above, int16 in *.
  pose proof (Z.mod_pos_bound (i + 1 + 2 ^ 15) (2 ^ 16)).
  destruct (decide (- 2 ^ 15 <= i + 1)); [rewrite Z.mod_small|]; lia.
Qed.

Definition checkWaterPresence : HW bool :=
  avg ← sample_from 0 0;
  let avg := int16 (avg ÷ 5) in
  mret (bool_decide (avg > CAP_WATER_THRESHOLD)).

(** ** Display and log *)

Definition initializeLCD : HW () :=
  emit ELcdInit;;
  emit ELcdBacklight;;
  lcd_clear;;
  lcd_setCursor 0 0;;
  lcd_print "LCD Test";;
  delay 500.

Definition updateDisplay (height : float) (size : string)
    (hasWater accepted : bool) : HW () :=
  lcd_clear;;
  lcd_setCursor 0 0;; lcd_print "Bottle Detected   ";;
  lcd_setCursor 0 1;; lcd_print "H:";; lcd_print_float height 1;;
    lcd_print "cm  ";; lcd_print size;;
  lcd_setCursor 0 2;; lcd_print "Water:";;
    lcd_print (if hasWater then "Present  " else "Absent  ");;
  lcd_setCursor 0 3;; lcd_print "Status:";;
    lcd_print (if accepted then "ACCEPTED" else "REJECTED").

Definition newline : string := String (Ascii.ascii_of_nat 10) EmptyString.

Definition logResults (height : float) (size : string)
    (hasWater accepted : bool) : HW () :=
  serial_print (newline +:+ "Height: ");; serial_print_float height;;
    serial_print "cm";;
  serial_print " | Size: ";; serial_print size;;
  serial_print " | Water: ";; serial_print (if hasWater then "Yes" else "No");;
  serial_print " | Status: ";;
    serial_println (if accepted then "ACCEPTED" else "REJECTED").

(** ** Core functions *)

(** The body of [bottleDetected] on its two static variables, given what
    the call reads. *)
Definition bottleDetected_step (s : Debounce) (k : Tick) : bool * Debounce :=
  let currentState := raw k in
  let lastDebounce1 :=
    if negb (eqb currentState (lastState s)) then t_edge k
    else lastDebounce s in
  let falls_through :=
    (false, mkDebounce lastDebounce1 currentState) in
  if bool_decide (uint32 (t_now k - lastDebounce1) > 50) then
    if eqb currentState LOW then (true, mkDebounce lastDebounce1 (lastState s))
    else falls_through
  else falls_through.

Definition bottleDetected : HW bool := fun w =>
  let k := ir_feed w (ir_n w) in
  let '(r, s) := bottleDetected_step (debounce w) k in
  (r, mkWorld (ir_feed w) (S (ir_n w)) (echo_feed w) (echo_n w)
        (adc_feed w) (adc_n w) s (pins w)
        (trace w ++ [EDigitalRead IR_SENSOR_PIN (raw k)])).

Definition inspectBottle : HW () :=
  height ← measureBottleHeight;
  let size := classifyBottleSize height in
  hasWater ← checkWaterPresence;
  let accepted := negb hasWater in
  updateDisplay height size hasWater accepted;;
  digitalWrite GREEN_LED (if accepted then HIGH else LOW);;
  digitalWrite RED_LED (if accepted then LOW else HIGH);;
  (if accepted then
     openGate;;
     acceptBeep;;
     delay 5000;;
     closeGate
   else
     rejectBeep);;
  logResults height size hasWater accepted.

Definition setup : HW () :=
  emit (ESerialBegin 9600);;
  serial_println "Bottle Inspection System Booting...";;
  emit EWireBegin;;
  initializeLCD;;
  servo_attach SERVO_PIN;;
  servo_write SERVO_CLOSED_ANGLE;;
  pinMode IR_SENSOR_PIN INPUT;;
  pinMode TRIG_PIN OUTPUT;;
  pinMode ECHO_PIN INPUT;;
  digitalWrite TRIG_PIN LOW;;
  pinMode BUZZER_PIN OUTPUT;;
  pinMode GREEN_LED OUTPUT;;
  pinMode RED_LED OUTPUT;;
  digitalWrite GREEN_LED LOW;;
  digitalWrite RED_LED LOW;;
  lcd_clear;;
  lcd_setCursor 0 0;;
  lcd_print "System Ready";;
  startupBeep;;
  delay 1000;;
  lcd_clear.

(** [while (bottleDetected()) { delay(10); }].  The loop runs for as long
    as the detector answers true, which the sensor may do forever; [fuel]
    bounds the number of polls and [None] means it ran out. *)
Fixpoint waitForPass (fuel : nat) (w : World) : option World :=
  match fuel with
  | O => None
  | S fuel' =>
      let '(present, w1) := bottleDetected w in
      if present then waitForPass fuel' (exec (delay 10) w1)
      else Some w1
  end.

(** One pass through [loop()]. *)
Definition loop (fuel : nat) (w : World) : option World :=
  let '(detected, w1) := bottleDetected w in
  if detected then
    w2 ← waitForPass fuel (exec inspectBottle w1);
    Some (exec (delay 2000;; lcd_clear;; delay 10) w2)
  else
    Some (exec (delay 10) w1).

(** * Reasoning about runs *)

(** [push es w]: the world after the output events [es] happened in [w]. *)
Definition push (es : list Event) (w : World) : World :=
  mkWorld (ir_feed w) (ir_n w) (echo_feed w) (echo_n w)
    (adc_feed w) (adc_n w) (debounce w) (foldl (flip drive) (pins w) es)
    (trace w ++ es).

(** [advance de da w]: the world after [de] echo readings and [da] ADC
    readings were consumed. *)
Definition advance (de da : nat) (w : World) : World :=
  mkWorld (ir_feed w) (ir_n w) (echo_feed w) (de + echo_n w)
    (adc_feed w) (da + adc_n w) (debounce w) (pins w) (trace w).

(** [m], run in [w], returns [r], appends the events [es] and consumes
    [de] echo readings and [da] ADC readings, touching nothing else. *)
Definition runs {A} (m : HW A) (w : World) (r : A) (es : list Event)
    (de da : nat) : Prop :=
  m w = (r, push es (advance de da w)).

(** [m] only produces output, always the events [es]. *)
Definition writes (m : HW ()) (es : list Event) : Prop :=
  forall w, runs m w tt es 0 0.

(** The arithmetic progression [start, start + step, ...] of [n] terms. *)
Fixpoint ramp (start step : Z) (n : nat) : list Z :=
  match n with
  | O => []
  | S n' => start :: ramp (start + step) step n'
  end.

(** A sweep through [angles]: each angle is written to the servo and
    followed by a 20 ms pause. *)
Definition sweep (angles : list Z) : list Event :=
  angles ≫= fun a => [EServoWrite a; EDelay 20].

(** The angles written to the servo, in order. *)
Definition servo_angles (es : list Event) : list Z :=
  omap (fun e => match e with EServoWrite a => Some a | _ => None end) es.

(** The pauses taken, in order. *)
Definition delays (es : list Event) : list Z :=
  omap (fun e => match e with EDelay ms => Some ms | _ => None end) es.

(** The levels driven on [pin], in order. *)
Definition levels_on (pin : Z) (es : list Event) : list bool :=
  omap (fun e => match e with
                 | EDigitalWrite p v => if decide (p = pin) then Some v else None
                 | _ => None
                 end) es.

(** The ADC values read, in order. *)
Definition adc_reads (es : list Event) : list Z :=
  omap (fun e => match e with EAnalogRead _ v => Some v | _ => None end) es.

(** The angle the servo was last told to take, if any. *)
Definition last_angle (w : World) : option Z := last (servo_angles (trace w)).

(** The next [n] ADC readings waiting in [w]. *)
Definition upcoming_adc (n : nat) (w : World) : list Z :=
  (fun k => adc_feed w (k + adc_n w)%nat) <$> seq 0 n.

(** The next echo duration waiting in [w], as stored in [long duration]. *)
Definition upcoming_duration (w : World) : Z := int32 (echo_feed w (echo_n w)).

(** [m] is the larger of [a] and [b]. *)
Definition is_max_of (a b m : float) : Prop :=
  F32.leb a m = true /\ F32.leb b m = true /\ (m = a \/ m = b).

(** ** Closed forms of what each function emits *)

Definition sampling (vs : list Z) : list Event :=
  vs ≫= fun v => [EAnalogRead CAP_SENSOR_PIN v; EDelay 10].

(** [avg += v] over the readings [vs], in [int] arithmetic. *)
Definition accumulate (avg : Z) (vs : list Z) : Z :=
  foldl (fun a v => int16 (a + v)) avg vs.

Definition measuring (echo : Z) : list Event :=
  [EDigitalWrite TRIG_PIN HIGH; EDelayMicroseconds 10;
   EDigitalWrite TRIG_PIN LOW; EPulseIn ECHO_PIN HIGH echo].

Definition tone (ms : Z) : list Event :=
  [EDigitalWrite BUZZER_PIN HIGH; EDelay ms; EDigitalWrite BUZZER_PIN LOW].

Definition displaying (height : float) (size : string)
    (hasWater accepted : bool) : list Event :=
  [ELcdClear;
   ELcdSetCursor 0 0; ELcdPrint "Bottle Detected   ";
   ELcdSetCursor 0 1; ELcdPrint "H:"; ELcdPrintFloat height 1;
     ELcdPrint "cm  "; ELcdPrint size;
   ELcdSetCursor 0 2; ELcdPrint "Water:";
     ELcdPrint (if hasWater then "Present  " else "Absent  ");
   ELcdSetCursor 0 3; ELcdPrint "Status:";
     ELcdPrint (if accepted then "ACCEPTED" else "REJECTED")].

Definition logging (height : float) (size : string)
    (hasWater accepted : bool) : list Event :=
  [ESerialPrint (newline +:+ "Height: "); ESerialPrintFloat height;
   ESerialPrint "cm"; ESerialPrint " | Size: "; ESerialPrint size;
   ESerialPrint " | Water: "; ESerialPrint (if hasWater then "Yes" else "No");
   ESerialPrint " | Status: ";
   ESerialPrintln (if accepted then "ACCEPTED" else "REJECTED")].

Definition indicating (accepted : bool) : list Event :=
  [EDigitalWrite GREEN_LED accepted; EDigitalWrite RED_LED (negb accepted)].

Definition accept_path : list Event :=
  sweep (ramp 0 2 91) ++ (tone 200 ++ [EDelay 100] ++ tone 200)
  ++ [EDelay 5000] ++ sweep (ramp 180 (-2) 91).

Definition reject_path : list Event := tone 1000.

Definition actuating (accepted : bool) : list Event :=
  if accepted then accept_path else reject_path.

(** What [checkWaterPresence] answers in [w]. *)
Definition water_seen (w : World) : bool :=
  bool_decide
    (int16 (accumulate 0 (upcoming_adc 5 w) ÷ 5) > CAP_WATER_THRESHOLD).

(** What [measureBottleHeight] answers in [w]. *)
Definition height_seen (w : World) : float :=
  let distance :=
    F32.div (F32.mul (F32.of_Z (upcoming_duration w)) lit_0_0343) lit_2 in
  max_macro (F32.sub SENSOR_HEIGHT distance) lit_0_0.

(** Everything [inspectBottle] emits in [w]. *)
Definition inspecting (w : World) : list Event :=
  let height := height_seen w in
  let size := classifyBottleSize height in
  let hasWater := water_seen w in
  let accepted := negb hasWater in
  measuring (echo_feed w (echo_n w)) ++ sampling (upcoming_adc 5 w) ++
  displaying height size hasWater accepted ++ indicating accepted ++
  actuating accepted ++ logging height size hasWater accepted.

Definition booting : list Event :=
  [ESerialBegin 9600; ESerialPrintln "Bottle Inspection System Booting...";
   EWireBegin;
   ELcdInit; ELcdBacklight; ELcdClear; ELcdSetCursor 0 0;
   ELcdPrint "LCD Test"; EDelay 500;
   EServoAttach SERVO_PIN; EServoWrite SERVO_CLOSED_ANGLE;
   EPinMode IR_SENSOR_PIN INPUT; EPinMode TRIG_PIN OUTPUT;
   EPinMode ECHO_PIN INPUT; EDigitalWrite TRIG_PIN LOW;
   EPinMode BUZZER_PIN OUTPUT; EPinMode GREEN_LED OUTPUT;
   EPinMode RED_LED OUTPUT;
   EDigitalWrite GREEN_LED LOW; EDigitalWrite RED_LED LOW;
   ELcdClear; ELcdSetCursor 0 0; ELcdPrint "System Ready"]
  ++ (tone 100 ++ [EDelay 50] ++ tone 100)
  ++ [EDelay 1000; ELcdClear].

(** The range of the 10-bit ADC behind [analogRead]. *)
Definition adc_range (v : Z) : Prop := 0 <= v <= 1023.

Definition sum_Z (vs : list Z) : Z := foldr Z.add 0 vs.

(** ** The debounced detector over a sequence of polls *)

(** The static variables as the program starts. *)
Definition power_on : Debounce := mkDebounce 0 HIGH.

(** The answers of successive calls of [bottleDetected] reading [ks]. *)
Fixpoint polls (s : Debounce) (ks : list Tick) : list bool :=
  match ks with
  | [] => []
  | k :: ks' =>
      let '(r, s') := bottleDetected_step s k in r :: polls s' ks'
  end.

(** [n] successive calls of [bottleDetected] in the world [w]. *)
Fixpoint poll (n : nat) (w : World) : list bool * World :=
  match n with
  | O => ([], w)
  | S n' =>
      let '(r, w1) := bottleDetected w in
      let '(rs, w2) := poll n' w1 in
      (r :: rs, w2)
  end.

(** The next [n] readings waiting for [bottleDetected] in [w]. *)
Definition upcoming_ticks (n : nat) (w : World) : list Tick :=
  (fun i => ir_feed w (i + ir_n w)%nat) <$> seq 0 n.

(** How many of those calls answered true. *)
Definition detections (s : Debounce) (ks : list Tick) : nat :=
  length (filter (fun r => r = true) (polls s ks)).

(** The sensor is read LOW at every poll of [ks], and the polls span
    more than the 50 ms window. *)
Definition stable_low (ks : list Tick) : Prop :=
  Forall (fun k => raw k = LOW) ks /\
  exists k0 k1, head ks = Some k0 /\ last ks = Some k1 /\
                t_now k1 - t_edge k0 > 50.

(** The reading [k] is taken fewer than 50 ms after time [t]. *)
Definition within_window (t : Z) (k : Tick) : Prop := 0 <= t_now k - t < 50.

(** [chatter l c ks]: the level never holds for 50 ms.  [l] is the level
    read last and [c] the time it was first read ([None] while the sensor
    still rests at the level it had at power-on); every reading of [ks]
    comes fewer than 50 ms after the level it shows was first read. *)
Fixpoint chatter (l : bool) (c : option Z) (ks : list Tick) : Prop :=
  match ks with
  | [] => True
  | k :: ks' =>
      if decide (raw k = l)
      then from_option (fun t => within_window t k) True c /\ chatter l c ks'
      else within_window (t_edge k) k /\ chatter (raw k) (Some (t_edge k)) ks'
  end.

(** The clock never goes back: from time [t] on, every poll of [ks] reads
    [t_edge] and then [t_now], fewer than 50 ms apart, and the next poll
    reads later values. *)
Fixpoint clocked (t : Z) (ks : list Tick) : Prop :=
  match ks with
  | [] => True
  | k :: ks' =>
      t <= t_edge k /\ t_edge k <= t_now k < t_edge k + 50 /\
      clocked (t_now k) ks'
  end.

(** [toggling l c ks]: the level keeps toggling faster than every 50 ms.
    [l] is the level read last and [c] the time of the last change
    ([None] before the first one).  Each change read in [ks] comes fewer
    than 50 ms after the previous change, and once a change has happened
    the signal does not settle: after every reading that shows no change,
    another change is still to come. *)
Fixpoint toggling (l : bool) (c : option Z) (ks : list Tick) : Prop :=
  match ks with
  | [] => True
  | k :: ks' =>
      if decide (raw k = l)
      then (is_Some c -> Exists (fun k' => raw k' <> l) ks') /\
           toggling l c ks'
      else from_option (fun t => t_edge k - t < 50) True c /\
           toggling (raw k) (Some (t_edge k)) ks'
  end.

(** ** The controller between function calls *)

(** Worlds the sketch can be in between the calls it makes: [setup] ran
    from some power-on world, then any sequence of the calls [loop]
    makes. *)
Inductive reachable : World -> Prop :=
| reach_setup (w0 : World) : reachable (exec setup w0)
| reach_poll (w : World) : reachable w -> reachable (exec bottleDetected w)
| reach_inspect (w : World) : reachable w -> reachable (exec inspectBottle w)
| reach_delay (ms : Z) (w : World) : reachable w -> reachable (exec (delay ms) w)
| reach_clear (w : World) : reachable w -> reachable (exec lcd_clear w).

(** [n] passes through [loop()]. *)
Fixpoint loops (n : nat) (fuel : nat) (w : World) : option World :=
  match n with
  | O => Some w
  | S n' => w1 ← loop fuel w; loops n' fuel w1
  end.

(** The same world with other echo durations waiting. *)
Definition with_echo (feed : nat -> Z) (w : World) : World :=
  mkWorld (ir_feed w) (ir_n w) feed (echo_n w)
    (adc_feed w) (adc_n w) (debounce w) (pins w) (trace w).

(** The accept decision as [inspectBottle] shows it on the accept LED. *)
Definition accept_shown (w : World) : option bool :=
  pins (exec inspectBottle w) !! GREEN_LED.

(** ** Example inputs *)

(** A world at power-on: nothing consumed, nothing emitted, no pin driven. *)
Definition bench (ticks : nat -> Tick) (echo adc : nat -> Z) : World :=
  mkWorld ticks 0 echo 0 adc 0 power_on ∅ [].

(** The sensor reads HIGH (no bottle) at every poll, one poll per 10 ms. *)
Definition no_bottle (n : nat) : Tick :=
  mkTick HIGH (10 * Z.of_nat n) (10 * Z.of_nat n).

(** A dry 10 cm bottle: echo after 1749 us, ADC around 100. *)
Definition dry_bench : World := bench no_bottle (fun _ => 1749) (fun _ => 100).

(** A bottle with liquid: ADC readings exactly at, or above, the threshold. *)
Definition threshold_bench : World :=
  bench no_bottle (fun _ => 1749) (fun _ => 500).
Definition wet_bench : World := bench no_bottle (fun _ => 583) (fun _ => 520).

(** No echo comes back: [pulseIn] times out and returns 0. *)
Definition no_echo_bench : World := bench no_bottle (fun _ => 0) (fun _ => 100).

(** A bottle with liquid passes the sensor: the level is LOW from the
    first poll, still LOW at the poll after the inspection, and HIGH from
    then on. *)
Definition wet_bottle_passing (n : nat) : Tick :=
  if decide (n < 7)%nat then mkTick LOW (10 * Z.of_nat n) (10 * Z.of_nat n)
  else if decide (n = 7)%nat then mkTick LOW 1200 1200
  else mkTick HIGH (3200 + 10 * Z.of_nat n) (3200 + 10 * Z.of_nat n).

Definition wet_line : World :=
  bench wet_bottle_passing (fun _ => 583) (fun _ => 520).


(** A bottle that stays in front of the sensor: nine polls, 10 ms apart,
    all LOW. *)
Definition first_low : Tick := mkTick LOW 1000 1000.
Definition later_lows : list Tick :=
  (fun n => mkTick LOW (1000 + 10 * n) (1000 + 10 * n)) <$> seqZ 1 8.
Definition lingering_bottle : list Tick := first_low :: later_lows.

(** A bouncing contact: the level changes again before 50 ms have passed. *)
Definition bouncing : list Tick :=
  [mkTick HIGH 0 0; mkTick LOW 10 10; mkTick LOW 40 40; mkTick HIGH 55 55;
   mkTick LOW 60 60; mkTick LOW 100 100; mkTick HIGH 105 105].

(** "Exactly one detection per stable-LOW interval", for the polls [ks]
    read from the static state [s]. *)
Definition once_per_interval (s : Debounce) (ks : list Tick) : Prop :=
  stable_low ks -> detections s ks = 1%nat.

(** ** Further observations of a run *)

(** The events [m] appends to the trace when run in [w]. *)
Definition emitted {A} (m : HW A) (w : World) : list Event :=
  drop (length (trace w)) (trace (exec m w)).

(** Milliseconds spent in [delay]. *)
Definition blocked_ms (es : list Event) : Z := sum_Z (delays es).

(** The strings printed on the LCD, in order. *)
Definition lcd_texts (es : list Event) : list string :=
  omap (fun e => match e with ELcdPrint s => Some s | _ => None end) es.

(** The strings printed on the serial line, in order. *)
Definition serial_texts (es : list Event) : list string :=
  omap (fun e => match e with
                 | ESerialPrint s | ESerialPrintln s => Some s
                 | _ => None
                 end) es.

(** The numbers printed, on the LCD or on the serial line, in order. *)
Definition numbers_shown (es : list Event) : list float :=
  omap (fun e => match e with
                 | ELcdPrintFloat x _ | ESerialPrintFloat x => Some x
                 | _ => None
                 end) es.

(** Consecutive angles differ by at most 2 degrees. *)
Definition smooth (angles : list Z) : Prop :=
  Forall (fun p => -2 <= p.2 - p.1 <= 2) (zip angles (tail angles)).

(** The pins the sketch uses as outputs. *)
Definition output_pins : list Z := [TRIG_PIN; BUZZER_PIN; GREEN_LED; RED_LED].

(** [drives_configured cfg es]: every [digitalWrite] of [es] goes to a pin
    that is in [cfg] or that an earlier [pinMode(pin, OUTPUT)] of [es]
    configured (and no later [pinMode(pin, INPUT)] took back). *)
Fixpoint drives_configured (cfg : list Z) (es : list Event) : bool :=
  match es with
  | [] => true
  | EPinMode pin mode :: es' =>
      drives_configured
        (if mode then pin :: cfg else filter (fun p => p <> pin) cfg) es'
  | EDigitalWrite pin _ :: es' =>
      bool_decide (pin ∈ cfg) && drives_configured cfg es'
  | _ :: es' => drives_configured cfg es'
  end.

(** The pins configured as outputs after [es], starting from [cfg]. *)
Fixpoint configured (cfg : list Z) (es : list Event) : list Z :=
  match es with
  | [] => cfg
  | EPinMode pin mode :: es' =>
      configured
        (if mode then pin :: cfg else filter (fun p => p <> pin) cfg) es'
  | _ :: es' => configured cfg es'
  end.

(** Which peripherals have been started. *)
Record Started := mkStarted {
  serial_up : bool; wire_up : bool; lcd_up : bool; servo_up : bool
}.

Definition nothing_started : Started := mkStarted false false false false.

(** [started_before_use st es]: in [es], the serial line is printed to only
    after [Serial.begin], the LCD is initialised only after [Wire.begin]
    and used only after [lcd.init], and the servo is written only after
    [attach]; [st] tells what was started before [es]. *)
Fixpoint started_before_use (st : Started) (es : list Event) : bool :=
  match es with
  | [] => true
  | e :: es' =>
      match e with
      | ESerialBegin _ =>
          started_before_use
            (mkStarted true (wire_up st) (lcd_up st) (servo_up st)) es'
      | ESerialPrint _ | ESerialPrintFloat _ | ESerialPrintln _ =>
          serial_up st && started_before_use st es'
      | EWireBegin =>
          started_before_use
            (mkStarted (serial_up st) true (lcd_up st) (servo_up st)) es'
      | ELcdInit =>
          wire_up st &&
          started_before_use
            (mkStarted (serial_up st) (wire_up st) true (servo_up st)) es'
      | ELcdBacklight | ELcdClear | ELcdSetCursor _ _ | ELcdPrint _
      | ELcdPrintFloat _ _ =>
          lcd_up st && started_before_use st es'
      | EServoAttach _ =>
          started_before_use
            (mkStarted (serial_up st) (wire_up st) (lcd_up st) true) es'
      | EServoWrite _ =>
          servo_up st && started_before_use st es'
      | _ => started_before_use st es'
      end
  end.

(** What is started after [es], starting from [st]. *)
Fixpoint started (st : Started) (es : list Event) : Started :=
  match es with
  | [] => st
  | ESerialBegin _ :: es' =>
      started (mkStarted true (wire_up st) (lcd_up st) (servo_up st)) es'
  | EWireBegin :: es' =>
      started (mkStarted (serial_up st) true (lcd_up st) (servo_up st)) es'
  | ELcdInit :: es' =>
      started (mkStarted (serial_up st) (wire_up st) true (servo_up st)) es'
  | EServoAttach _ :: es' =>
      started (mkStarted (serial_up st) (wire_up st) (lcd_up st) true) es'
  | _ :: es' => started st es'
  end.

(** Everything the sketch emitted since it was powered on in [w0]. *)
Definition since (w0 w : World) : list Event :=
  drop (length (trace w0)) (trace w).

(** Worlds the sketch can be in between the calls it makes, having been
    powered on in [w0]. *)
Inductive run_from (w0 : World) : World -> Prop :=
| run_setup : run_from w0 (exec setup w0)
| run_poll (w : World) : run_from w0 w -> run_from w0 (exec bottleDetected w)
| run_inspect (w : World) : run_from w0 w -> run_from w0 (exec inspectBottle w)
| run_delay (ms : Z) (w : World) :
    run_from w0 w -> run_from w0 (exec (delay ms) w)
| run_clear (w : World) : run_from w0 w -> run_from w0 (exec lcd_clear w).

(** What the calls [loop] makes can append to the trace. *)
Inductive loop_events : list Event -> Prop :=
| le_nil : loop_events []
| le_poll (es : list Event) (level : bool) :
    loop_events es -> loop_events (es ++ [EDigitalRead IR_SENSOR_PIN level])
| le_inspect (es : list Event) (w : World) :
    loop_events es -> loop_events (es ++ inspecting w)
| le_delay (es : list Event) (ms : Z) :
    loop_events es -> loop_events (es ++ [EDelay ms])
| le_clear (es : list Event) :
    loop_events es -> loop_events (es ++ [ELcdClear]).

(** A poll of a sensor pin, or a pause. *)
Definition poll_or_pause (e : Event) : Prop :=
  match e with
  | EDigitalRead _ _ | EDelay _ => True
  | _ => False
  end.

(** [w'] comes from [w] by polls of the IR sensor and pauses only: same
    oracles, same echo and ADC positions, same pin levels, and nothing
    but polls and pauses added to the trace. *)
Definition only_polled (w w' : World) : Prop :=
  ir_feed w' = ir_feed w /\ echo_feed w' = echo_feed w /\
  adc_feed w' = adc_feed w /\
  (ir_n w <= ir_n w')%nat /\ echo_n w' = echo_n w /\ adc_n w' = adc_n w /\
  pins w' = pins w /\
  exists es, trace w' = trace w ++ es /\ Forall poll_or_pause es.

(** The millisecond counter reads [2^32 - 20] when the level falls; it has
    wrapped to 40 when this poll is made, 60 ms later. *)
Definition poll_after_rollover : Tick := mkTick LOW 40 40.

(** A HIGH reading long after the last change. *)
Definition high_reading : Tick := mkTick HIGH 5000 5000.

(** The static variables while a bottle has been in front of the sensor
    since time 1000. *)
Definition bottle_seen : Debounce := mkDebounce 1000 LOW.

(** The sensor reads LOW twice, then HIGH: the bottle has left. *)
Definition bottle_leaves (n : nat) : Tick :=
  if decide (n < 2)%nat then mkTick LOW (2000 + 10 * Z.of_nat n)
                               (2000 + 10 * Z.of_nat n)
  else mkTick HIGH (2000 + 10 * Z.of_nat n) (2000 + 10 * Z.of_nat n).

(** A world in which the bottle has been seen since time 1000 and then
    leaves. *)
Definition leaving_bench : World :=
  mkWorld bottle_leaves 0 (fun _ => 1749) 0 (fun _ => 100) 0
    bottle_seen ∅ [].

(** * Lemmas *)

(** ** Machine integers *)

Lemma int16_small (x : Z) : - 2 ^ 15 <= x < 2 ^ 15 -> int16 x = x.
Proof. unfold int16. intros H. rewrite Z.mod_small; lia. Qed.

Lemma uint32_small (x : Z) : 0 <= x < 2 ^ 32 -> uint32 x = x.
Proof. unfold uint32. intros H. rewrite Z.mod_small; lia. Qed.

(** ** Binary32 comparisons and NaN *)

Module F32Facts.

Lemma compare_swap (x y : float) (c : comparison) :
  SFcompare x y = Some c -> SFcompare y x = Some (CompOpp c).
Proof.
  destruct x as [sx|sx| |sx mx ex], y as [sy|sy| |sy my ey]; simpl;
    try discriminate;
    try (intros [= <-]; repeat case_match; reflexivity).
  intros [= <-]. f_equal.
  pose proof (Pos.compare_cont_antisym mx my Eq) as Hm. simpl in Hm.
  rewrite (Z.compare_antisym ex ey), <- Hm.
  destruct sx, sy, (ex ?= ey), (Pos.compare_cont Eq mx my); reflexivity.
Qed.

Lemma compare_refl (x : float) :
  F32.is_nan x = false -> SFcompare x x = Some Eq.
Proof.
  destruct x as [s|s| |s m e]; simpl; try done.
  - by destruct s.
  - intros _. rewrite Z.compare_refl.
    change (Pos.compare_cont Eq m m) with (Pos.compare m m).
    rewrite Pos.compare_refl. by destruct s.
Qed.

Lemma compare_defined (x y : float) :
  F32.is_nan x = false -> F32.is_nan y = false -> is_Some (SFcompare x y).
Proof. destruct x, y; simpl; try done; eauto. Qed.

(** On numbers, "not [x <= y]" is [y < x]. *)
Lemma leb_false_ltb (x y : float) :
  F32.is_nan x = false -> F32.is_nan y = false ->
  F32.leb x y = false <-> F32.ltb y x = true.
Proof.
  intros Hx Hy. unfold F32.leb, F32.ltb, SFleb, SFltb.
  destruct (compare_defined x y Hx Hy) as [c Hc].
  rewrite Hc, (compare_swap x y c Hc). by destruct c.
Qed.

Lemma ltb_leb (x y : float) : F32.ltb x y = true -> F32.leb x y = true.
Proof.
  unfold F32.leb, F32.ltb, SFleb, SFltb.
  by destruct (SFcompare x y) as [[]|].
Qed.

Lemma leb_refl (x : float) : F32.is_nan x = false -> F32.leb x x = true.
Proof. intros H. unfold F32.leb, SFleb. by rewrite compare_refl. Qed.

Section Rounding.
Context (prec emax : Z).

Lemma shr_1_nonneg (mrs : shr_record) :
  0 <= shr_m mrs -> 0 <= shr_m (shr_1 mrs).
Proof.
  destruct mrs as [m r s]; simpl.
  destruct m as [|p|p]; [done| |lia].
  intros _. destruct p; simpl; lia.
Qed.

Lemma iter_shr_1_nonneg (p : positive) (mrs : shr_record) :
  0 <= shr_m mrs -> 0 <= shr_m (SpecFloat.iter_pos shr_1 p mrs).
Proof.
  revert mrs. induction p as [p IH|p IH|]; intros mrs H; simpl.
  - apply IH, IH, shr_1_nonneg, H.
  - apply IH, IH, H.
  - apply shr_1_nonneg, H.
Qed.

Lemma shr_fexp_nonneg (m e : Z) (l : location) :
  0 <= m -> 0 <= shr_m (fst (shr_fexp prec emax m e l)).
Proof.
  intros H. unfold shr_fexp, shr.
  assert (0 <= shr_m (shr_record_of_loc m l)) as H0.
  { destruct l as [|[]]; exact H. }
  destruct (fexp prec emax (Zdigits2 m + e) - e); simpl; try exact H0.
  apply iter_shr_1_nonneg, H0.
Qed.

Lemma round_nearest_even_nonneg (m : Z) (l : location) :
  0 <= m -> 0 <= round_nearest_even m l.
Proof.
  intros H. destruct l as [|[]]; simpl; try lia. destruct (Z.even m); lia.
Qed.

(** Rounding a non-negative mantissa never produces NaN. *)
Lemma binary_round_aux_number (sx : bool) (mx ex : Z) (lx : location) :
  0 <= mx -> F32.is_nan (binary_round_aux prec emax sx mx ex lx) = false.
Proof.
  intros H. unfold binary_round_aux.
  pose proof (shr_fexp_nonneg mx ex lx H) as H1.
  destruct (shr_fexp prec emax mx ex lx) as [mrs1 e1]; simpl in H1.
  pose proof (shr_fexp_nonneg _ e1 loc_Exact
                (round_nearest_even_nonneg _ (loc_of_shr_record mrs1) H1))
    as H2.
  destruct (shr_fexp prec emax _ e1 loc_Exact) as [mrs2 e2]; simpl in H2.
  destruct (shr_m mrs2); [done| |lia].
  by destruct (e2 <=? emax - prec).
Qed.

Lemma binary_normalize_number (m e : Z) (sz : bool) :
  F32.is_nan (binary_normalize prec emax m e sz) = false.
Proof.
  destruct m; simpl; [done| |]; unfold binary_round;
    destruct (shl_align _ _ _); apply binary_round_aux_number; lia.
Qed.

End Rounding.

Lemma of_Z_number (n : Z) : F32.is_nan (F32.of_Z n) = false.
Proof. apply binary_normalize_number. Qed.

Lemma mul_number (x y : float) :
  F32.is_nan x = false -> F32.finite y -> F32.is_nan (F32.mul x y) = false.
Proof.
  intros Hx (s & m & e & ->).
  destruct x; simpl; try done. apply binary_round_aux_number. lia.
Qed.

Lemma div_number (x y : float) :
  F32.is_nan x = false -> F32.finite y -> F32.is_nan (F32.div x y) = false.
Proof.
  intros Hx (s & m & e & ->).
  destruct x as [sx|sx| |sx mx ex]; simpl; try done.
  unfold SFdiv_core_binary.
  set (m' := match _ with Z.pos _ => _ | _ => _ end).
  assert (0 <= m') as Hm'.
  { subst m'. destruct (_ - _ - _); try lia. apply Z.shiftl_nonneg. lia. }
  pose proof (Z_div_mod m' (Z.pos m) ltac:(lia)) as Hdm.
  destruct (Z.div_eucl m' (Z.pos m)) as [q r].
  apply binary_round_aux_number. nia.
Qed.

Lemma sub_number (x y : float) :
  F32.finite x -> F32.is_nan y = false -> F32.is_nan (F32.sub x y) = false.
Proof.
  intros (s & m & e & ->) Hy.
  destruct y; simpl; try done. apply binary_normalize_number.
Qed.

End F32Facts.

(** ** Composing runs *)

Section Runs.

Lemma push_nil (w : World) : push [] w = w.
Proof. destruct w. unfold push. simpl. by rewrite app_nil_r. Qed.

Lemma push_push (es1 es2 : list Event) (w : World) :
  push es2 (push es1 w) = push (es1 ++ es2) w.
Proof. unfold push. simpl. by rewrite foldl_app, app_assoc. Qed.

Lemma advance_0 (w : World) : advance 0 0 w = w.
Proof. by destruct w. Qed.

Lemma advance_advance (de1 da1 de2 da2 : nat) (w : World) :
  advance de2 da2 (advance de1 da1 w) = advance (de1 + de2) (da1 + da2) w.
Proof. unfold advance. simpl. f_equal; lia. Qed.

Lemma runs_bind {A B} (m : HW A) (f : A -> HW B) (w : World)
    (r1 : A) (es1 : list Event) (de1 da1 : nat)
    (r2 : B) (es2 : list Event) (de2 da2 : nat) :
  runs m w r1 es1 de1 da1 ->
  runs (f r1) (push es1 (advance de1 da1 w)) r2 es2 de2 da2 ->
  runs (m ≫= f) w r2 (es1 ++ es2) (de1 + de2) (da1 + da2).
Proof.
  unfold runs. intros H1 H2. unfold mbind, HW_bind. rewrite H1, H2.
  f_equal.
  change (advance de2 da2 (push es1 ?v))
    with (push es1 (advance de2 da2 v)).
  by rewrite push_push, advance_advance.
Qed.

Lemma runs_ret {A} (a : A) (w : World) : runs (mret a) w a [] 0 0.
Proof. unfold runs. by rewrite advance_0, push_nil. Qed.

Lemma writes_runs (m : HW ()) (es : list Event) (w : World) :
  writes m es -> runs m w tt es 0 0.
Proof. intros H. apply H. Qed.

Lemma writes_emit (e : Event) : writes (emit e) [e].
Proof. intros w. unfold runs. by rewrite advance_0. Qed.

Lemma writes_ret : writes (mret tt) [].
Proof. intros w. apply runs_ret. Qed.

Lemma writes_bind (m1 m2 : HW ()) (es1 es2 : list Event) :
  writes m1 es1 -> writes m2 es2 -> writes (m1;; m2) (es1 ++ es2).
Proof.
  intros H1 H2 w.
  apply (runs_bind m1 (fun _ => m2) w tt es1 0 0 tt es2 0 0);
    [apply H1|apply H2].
Qed.

Lemma writes_if (b : bool) (m1 m2 : HW ()) (es1 es2 : list Event) :
  writes m1 es1 -> writes m2 es2 ->
  writes (if b then m1 else m2) (if b then es1 else es2).
Proof. by destruct b. Qed.

Lemma writes_exec (m : HW ()) (es : list Event) (w : World) :
  writes m es -> exec m w = push es w.
Proof. intros H. unfold exec. rewrite (H w). simpl. by rewrite advance_0. Qed.

End Runs.

Create HintDb writes discriminated.
#[local] Hint Resolve writes_emit writes_ret writes_bind writes_if : writes.

(** ** What each function emits *)

Lemma writes_as (m : HW ()) (es es' : list Event) :
  writes m es -> es = es' -> writes m es'.
Proof. by intros H <-. Qed.

Ltac writes_by_structure :=
  eapply writes_as; [ solve [eauto 60 with writes] | try reflexivity ].

Lemma writes_beep (d : Z) :
  writes (beep d) (tone (uint32 d)).
Proof. unfold beep, digitalWrite, delay. writes_by_structure. Qed.
#[local] Hint Resolve writes_beep : writes.

Lemma openGate_from_eq (pos : Z) :
  openGate_from pos =
  if decide (pos <= SERVO_OPEN_ANGLE)
  then servo_write pos;; delay 20;; openGate_from (int16 (pos + 2))
  else mret tt.
Proof.
  etrans; [apply openGate_from_equation_1|]. by destruct (decide _).
Qed.

Lemma closeGate_from_eq (pos : Z) :
  closeGate_from pos =
  if decide (SERVO_CLOSED_ANGLE <= pos)
  then servo_write pos;; delay 20;; closeGate_from (int16 (pos - 2))
  else mret tt.
Proof.
  etrans; [apply closeGate_from_equation_1|]. by destruct (decide _).
Qed.

Lemma writes_openGate_from (n : nat) (pos : Z) :
  pos = SERVO_OPEN_ANGLE + 2 - 2 * Z.of_nat n -> 0 <= pos ->
  writes (openGate_from pos) (sweep (ramp pos 2 n)).
Proof.
  revert pos. induction n as [|n IH]; intros pos Hpos Hge;
    rewrite openGate_from_eq; unfold SERVO_OPEN_ANGLE in *.
  - rewrite decide_False by lia. apply writes_ret.
  - rewrite decide_True by lia. rewrite int16_small by lia.
    unfold servo_write, delay.
    eapply writes_as; [ eauto using IH with writes lia | reflexivity ].
Qed.

Lemma writes_closeGate_from (n : nat) (pos : Z) :
  pos = 2 * Z.of_nat n - 2 -> pos <= SERVO_OPEN_ANGLE ->
  writes (closeGate_from pos) (sweep (ramp pos (-2) n)).
Proof.
  revert pos. induction n as [|n IH]; intros pos Hpos Hle;
    rewrite closeGate_from_eq;
    unfold SERVO_CLOSED_ANGLE, SERVO_OPEN_ANGLE in *.
  - rewrite decide_False by lia. apply writes_ret.
  - rewrite decide_True by lia. rewrite int16_small by lia.
    unfold servo_write, delay.
    eapply writes_as; [ eauto using IH with writes lia | reflexivity ].
Qed.

Lemma writes_openGate : writes openGate (sweep (ramp 0 2 91)).
Proof.
  apply (writes_openGate_from 91);
    unfold SERVO_CLOSED_ANGLE, SERVO_OPEN_ANGLE; lia.
Qed.

Lemma writes_closeGate : writes closeGate (sweep (ramp 180 (-2) 91)).
Proof. apply (writes_closeGate_from 91); unfold SERVO_OPEN_ANGLE; lia. Qed.

Lemma ramp_lookup (start step : Z) (n i : nat) :
  (i < n)%nat -> ramp start step n !! i = Some (start + step * Z.of_nat i).
Proof.
  revert start i. induction n as [|n IH]; intros start i Hi; [lia|].
  destruct i as [|i]; simpl.
  - f_equal. lia.
  - rewrite IH by lia. f_equal. lia.
Qed.

Lemma ramp_length (start step : Z) (n : nat) : length (ramp start step n) = n.
Proof. revert start. induction n; intros; simpl; auto. Qed.

Lemma servo_angles_sweep (angles : list Z) : servo_angles (sweep angles) = angles.
Proof. induction angles as [|a l IH]; [done|]. simpl. by f_equal. Qed.

Lemma delays_sweep (angles : list Z) :
  delays (sweep angles) = replicate (length angles) 20.
Proof. induction angles as [|a l IH]; [done|]. simpl. by f_equal. Qed.

Lemma sample_from_eq (i avg : Z) :
  sample_from i avg =
  if decide (i < 5)
  then v ← analogRead CAP_SENSOR_PIN; delay 10;;
       sample_from (int16 (i + 1)) (int16 (avg + v))
  else mret avg.
Proof.
  etrans; [apply sample_from_equation_1|]. by destruct (decide _).
Qed.

Lemma runs_analogRead (pin : Z) (w : World) :
  runs (analogRead pin) w (adc_feed w (adc_n w))
    [EAnalogRead pin (adc_feed w (adc_n w))] 0 1.
Proof.
  reflexivity.
Qed.

Lemma runs_pulseIn (pin : Z) (level : bool) (w : World) :
  runs (pulseIn pin level) w (echo_feed w (echo_n w))
    [EPulseIn pin level (echo_feed w (echo_n w))] 1 0.
Proof.
  reflexivity.
Qed.

Lemma runs_bind_as {A B} (m : HW A) (f : A -> HW B) (w : World)
    (r1 : A) (es1 : list Event) (de1 da1 : nat)
    (r2 : B) (es2 es : list Event) (de2 da2 de da : nat) :
  runs m w r1 es1 de1 da1 ->
  runs (f r1) (push es1 (advance de1 da1 w)) r2 es2 de2 da2 ->
  es = es1 ++ es2 -> de = (de1 + de2)%nat -> da = (da1 + da2)%nat ->
  runs (m ≫= f) w r2 es de da.
Proof. intros H1 H2 -> -> ->. by eapply runs_bind. Qed.

Lemma upcoming_adc_S (n : nat) (w w' : World) :
  adc_feed w' = adc_feed w -> adc_n w' = S (adc_n w) ->
  upcoming_adc (S n) w = adc_feed w (adc_n w) :: upcoming_adc n w'.
Proof.
  intros Hf Hn. unfold upcoming_adc. simpl. rewrite Hf, Hn. f_equal.
  rewrite <- fmap_S_seq, <- list_fmap_compose. apply list_fmap_ext.
  intros _ k _. simpl. f_equal. lia.
Qed.

Lemma runs_sample_from (n : nat) (i avg : Z) (w : World) :
  i = 5 - Z.of_nat n -> 0 <= i ->
  runs (sample_from i avg) w (accumulate avg (upcoming_adc n w))
    (sampling (upcoming_adc n w)) 0 n.
Proof.
  revert i avg w. induction n as [|n IH]; intros i avg w Hi Hge;
    rewrite sample_from_eq.
  - rewrite decide_False by lia. apply runs_ret.
  - rewrite decide_True by lia. rewrite int16_small by lia.
    set (v := adc_feed w (adc_n w)).
    set (w' := push [EDelay 10]
                 (advance 0 0 (push [EAnalogRead CAP_SENSOR_PIN v] (advance 0 1 w)))).
    rewrite (upcoming_adc_S n w w') by done.
    fold v.
    eapply runs_bind_as; [apply runs_analogRead| |reflexivity..].
    eapply runs_bind_as; [apply writes_emit| |reflexivity..].
    apply IH; lia.
Qed.

Lemma runs_measureBottleHeight (w : World) :
  runs measureBottleHeight w (height_seen w)
    (measuring (echo_feed w (echo_n w))) 1 0.
Proof.
  unfold measureBottleHeight, digitalWrite, delayMicroseconds.
  eapply runs_bind_as; [apply writes_emit| |reflexivity..].
  eapply runs_bind_as; [apply writes_emit| |reflexivity..].
  eapply runs_bind_as; [apply writes_emit| |reflexivity..].
  eapply runs_bind_as; [apply runs_pulseIn| |reflexivity..].
  apply runs_ret.
Qed.

Lemma runs_checkWaterPresence (w : World) :
  runs checkWaterPresence w (water_seen w) (sampling (upcoming_adc 5 w)) 0 5.
Proof.
  unfold checkWaterPresence, water_seen.
  eapply runs_bind_as.
  - apply (runs_sample_from 5); lia.
  - cbv beta zeta. apply runs_ret.
  - by rewrite app_nil_r.
  - done.
  - done.
Qed.


Lemma writes_updateDisplay (h : float) (size : string) (hw acc : bool) :
  writes (updateDisplay h size hw acc) (displaying h size hw acc).
Proof.
  unfold updateDisplay, lcd_clear, lcd_setCursor, lcd_print, lcd_print_float.
  writes_by_structure.
Qed.

Lemma writes_logResults (h : float) (size : string) (hw acc : bool) :
  writes (logResults h size hw acc) (logging h size hw acc).
Proof.
  unfold logResults, serial_print, serial_print_float, serial_println.
  writes_by_structure.
Qed.

Lemma writes_actuation (accepted : bool) :
  writes (if accepted then openGate;; acceptBeep;; delay 5000;; closeGate
          else rejectBeep) (actuating accepted).
Proof.
  unfold actuating, rejectBeep, acceptBeep, delay.
  apply writes_if; [|apply writes_beep].
  repeat apply writes_bind;
    auto using writes_openGate, writes_closeGate with writes.
Qed.

#[local] Hint Resolve writes_updateDisplay writes_logResults writes_actuation : writes.

Lemma upcoming_adc_after (n : nat) (es : list Event) (de : nat) (w : World) :
  upcoming_adc n (push es (advance de 0 w)) = upcoming_adc n w.
Proof. reflexivity. Qed.

Lemma water_seen_after (es : list Event) (de : nat) (w : World) :
  water_seen (push es (advance de 0 w)) = water_seen w.
Proof. unfold water_seen. by rewrite upcoming_adc_after. Qed.

Lemma runs_inspectBottle (w : World) :
  runs inspectBottle w tt (inspecting w) 1 5.
Proof.
  unfold inspectBottle, inspecting.
  eapply runs_bind_as; [apply runs_measureBottleHeight| |reflexivity..].
  cbv zeta.
  eapply runs_bind_as; [apply runs_checkWaterPresence| |..]; cycle 1.
  - rewrite upcoming_adc_after. reflexivity.
  - reflexivity.
  - reflexivity.
  - rewrite water_seen_after, upcoming_adc_after.
    generalize (height_seen w) (water_seen w). intros h hw.
    apply writes_runs. unfold digitalWrite.
    eapply writes_as; [ solve [eauto 20 with writes] |].
    unfold indicating. by destruct hw.
Qed.

Lemma result_measureBottleHeight (w : World) :
  result measureBottleHeight w = height_seen w.
Proof. unfold result. by rewrite runs_measureBottleHeight. Qed.

Lemma result_checkWaterPresence (w : World) :
  result checkWaterPresence w = water_seen w.
Proof. unfold result. by rewrite runs_checkWaterPresence. Qed.

Lemma exec_measureBottleHeight (w : World) :
  exec measureBottleHeight w =
  push (measuring (echo_feed w (echo_n w))) (advance 1 0 w).
Proof. unfold exec. by rewrite runs_measureBottleHeight. Qed.

Lemma exec_inspectBottle (w : World) :
  exec inspectBottle w = push (inspecting w) (advance 1 5 w).
Proof. unfold exec. by rewrite runs_inspectBottle. Qed.

(** * The claims *)

(** ** Classifier *)

Lemma above_medium_not_small (h : float) :
  F32.ltb MEDIUM_MAX h = true -> F32.leb h SMALL_MAX = false.
Proof.
  unfold F32.ltb, F32.leb, SFltb, SFleb, MEDIUM_MAX, SMALL_MAX.
  destruct h as [s|s| |[] m e]; cbv beta iota delta [SFcompare];
    try done; try by destruct s.
  destruct (Z.compare_spec (-19) e), (Z.compare_spec e (-20));
    try done; lia.
Qed.

(** On NaN every comparison fails and the last branch is taken. *)
Lemma classifyBottleSize_nan : classifyBottleSize S754_nan = "Large".
Proof. reflexivity. Qed.

(** C2. For every height [h] (a number: finite or infinite, not NaN),
    [classifyBottleSize h] is "Small" iff [h <= 15.0], "Medium" iff
    [15.0 < h <= 25.0] and "Large" iff [h > 25.0]; 15.0 itself is Small
    and 25.0 itself is Medium; the answer is always one of the three. *)
Theorem classifyBottleSize_bands (h : float) :
  F32.is_nan h = false ->
  (classifyBottleSize h = "Small" <-> F32.leb h SMALL_MAX = true) /\
  (classifyBottleSize h = "Medium" <->
     F32.ltb SMALL_MAX h = true /\ F32.leb h MEDIUM_MAX = true) /\
  (classifyBottleSize h = "Large" <-> F32.ltb MEDIUM_MAX h = true) /\
  classifyBottleSize SMALL_MAX = "Small" /\
  classifyBottleSize MEDIUM_MAX = "Medium" /\
  classifyBottleSize h ∈ ["Small"; "Medium"; "Large"].
Proof.
  intros Hh.
  assert (forall x : string, x ∈ [x; "Medium"; "Large"]) as In1 by set_solver.
  assert (forall x : string, x ∈ ["Small"; x; "Large"]) as In2 by set_solver.
  assert (forall x : string, x ∈ ["Small"; "Medium"; x]) as In3 by set_solver.
  assert (F32.is_nan SMALL_MAX = false) as Hs by done.
  assert (F32.is_nan MEDIUM_MAX = false) as Hm by done.
  pose proof (F32Facts.leb_false_ltb h SMALL_MAX Hh Hs) as Hsmall.
  pose proof (F32Facts.leb_false_ltb h MEDIUM_MAX Hh Hm) as Hmedium.
  pose proof (above_medium_not_small h) as Habove.
  unfold classifyBottleSize.
  destruct (F32.leb h SMALL_MAX) eqn:E1;
    [|destruct (F32.leb h MEDIUM_MAX) eqn:E2];
    split_and!; try done; split; try done.
  - intros [H _]. apply Hsmall in H. congruence.
  - intros H. apply Habove in H. congruence.
  - intros _. split; [by apply Hsmall | done].
  - intros H. apply Hmedium in H. congruence.
  - by intros [_ ?].
  - intros _. by apply Hmedium.
Qed.

Lemma classifyBottleSize_bands_witness :
  F32.is_nan (F32.of_Z 20) = false /\
  classifyBottleSize (F32.of_Z 20) = "Medium" /\
  F32.ltb SMALL_MAX (F32.of_Z 20) = true /\
  F32.leb (F32.of_Z 20) MEDIUM_MAX = true.
Proof.
  split; [reflexivity|].
  destruct (classifyBottleSize_bands (F32.of_Z 20) eq_refl)
    as (_ & Hmedium & _).
  split; [reflexivity|]. apply Hmedium. reflexivity.
Defined.

(** ** Distance sampler *)

(** C3. For every echo duration >= 0, with
    [distance = duration * 0.0343 / 2], [measureBottleHeight] returns the
    larger of [40.0 - distance] and [0.0], so never a negative height; a
    zero duration gives distance 0 and the height 40.0 exactly. *)
Theorem measureBottleHeight_clamped (w : World) :
  let duration := upcoming_duration w in
  let distance := F32.div (F32.mul (F32.of_Z duration) lit_0_0343) lit_2 in
  let height := result measureBottleHeight w in
  0 <= duration ->
  is_max_of (F32.sub SENSOR_HEIGHT distance) lit_0_0 height /\
  F32.ltb height lit_0_0 = false /\
  (duration = 0 -> distance = lit_0_0 /\ height = SENSOR_HEIGHT).
Proof.
  intros duration distance height _. subst height.
  rewrite result_measureBottleHeight. unfold height_seen. fold duration distance.
  set (a := F32.sub SENSOR_HEIGHT distance).
  assert (F32.is_nan a = false) as Ha.
  { apply F32Facts.sub_number; [by eexists _, _, _|].
    apply F32Facts.div_number; [|by eexists _, _, _].
    apply F32Facts.mul_number; [|by eexists _, _, _].
    apply F32Facts.of_Z_number. }
  assert (is_max_of a lit_0_0 (max_macro a lit_0_0)) as Hmax.
  { unfold is_max_of, max_macro, F32.gtb. fold (F32.ltb lit_0_0 a).
    destruct (F32.ltb lit_0_0 a) eqn:E.
    - split_and!; [by apply F32Facts.leb_refl | by apply F32Facts.ltb_leb | by left].
    - split_and!; [|done|by right].
      destruct (F32.leb a lit_0_0) eqn:E'; [done|].
      apply F32Facts.leb_false_ltb in E'; [congruence|done..]. }
  split; [exact Hmax|]. split.
  - destruct Hmax as (_ & H0 & _).
    destruct (F32.ltb (max_macro a lit_0_0) lit_0_0) eqn:E; [|done].
    apply F32Facts.leb_false_ltb in E; [congruence|done|].
    unfold max_macro. by destruct (F32.gtb a lit_0_0).
  - intros Hd. subst a distance. rewrite Hd. by vm_compute.
Qed.

Lemma measureBottleHeight_clamped_witness :
  0 <= upcoming_duration no_echo_bench /\
  upcoming_duration no_echo_bench = 0 /\
  F32.ltb (result measureBottleHeight no_echo_bench) lit_0_0 = false /\
  result measureBottleHeight no_echo_bench = SENSOR_HEIGHT.
Proof.
  assert (0 <= upcoming_duration no_echo_bench) as H
    by (vm_compute; discriminate).
  destruct (measureBottleHeight_clamped no_echo_bench H)
    as (_ & Hpos & Hzero).
  refine (conj H (conj eq_refl (conj Hpos _))).
  exact (proj2 (Hzero eq_refl)).
Defined.

(** ** Capacitive liquid sampler *)

Lemma accumulate_exact (vs : list Z) (avg : Z) :
  Forall adc_range vs -> 0 <= avg ->
  avg + 1023 * Z.of_nat (length vs) < 2 ^ 15 ->
  accumulate avg vs = avg + sum_Z vs /\ 0 <= sum_Z vs <= 1023 * Z.of_nat (length vs).
Proof.
  unfold accumulate.
  intros Hvs. revert avg. induction Hvs as [|v vs [Hv0 Hv1] _ IH];
    intros avg Havg Hfit; simpl in *; [lia|].
  rewrite int16_small by lia.
  destruct (IH (avg + v)) as [-> ?]; lia.
Qed.

Lemma upcoming_adc_length (n : nat) (w : World) : length (upcoming_adc n w) = n.
Proof. unfold upcoming_adc. by rewrite length_fmap, length_seq. Qed.

Lemma adc_reads_sampling (vs : list Z) : adc_reads (sampling vs) = vs.
Proof. induction vs as [|v vs IH]; [done|]. simpl. by f_equal. Qed.

(** C4. [checkWaterPresence] reads exactly five analog samples (each
    followed by a 10 ms pause) and, the samples being ADC readings,
    returns true iff their integer-truncated average is strictly greater
    than 500: an average of exactly 500 gives false, five samples of 520
    give true, five samples of 100 give false. *)
Theorem checkWaterPresence_threshold (w : World) :
  let samples := upcoming_adc 5 w in
  let average := sum_Z samples ÷ 5 in
  Forall adc_range samples ->
  length samples = 5%nat /\
  trace (exec checkWaterPresence w) = trace w ++ sampling samples /\
  adc_reads (sampling samples) = samples /\
  adc_n (exec checkWaterPresence w) = (5 + adc_n w)%nat /\
  result checkWaterPresence w = bool_decide (average > 500) /\
  (average = 500 -> result checkWaterPresence w = false) /\
  (samples = replicate 5 520 -> result checkWaterPresence w = true) /\
  (samples = replicate 5 100 -> result checkWaterPresence w = false).
Proof.
  intros samples average Hrange.
  assert (result checkWaterPresence w = bool_decide (average > 500)) as Hres.
  { rewrite result_checkWaterPresence. unfold water_seen. fold samples.
    destruct (accumulate_exact samples 0 Hrange) as [-> Hsum]; [lia| |].
    { unfold samples. rewrite upcoming_adc_length. lia. }
    unfold samples in Hsum. rewrite upcoming_adc_length in Hsum.
    fold samples in Hsum. rewrite Z.add_0_l.
    assert (0 <= sum_Z samples ÷ 5 <= 1023) as Hq.
    { split; [apply Z.quot_pos; lia|]. apply Z.quot_le_upper_bound; lia. }
    rewrite int16_small by lia. done. }
  split_and!.
  - apply upcoming_adc_length.
  - unfold exec. by rewrite runs_checkWaterPresence.
  - apply adc_reads_sampling.
  - unfold exec. by rewrite runs_checkWaterPresence.
  - exact Hres.
  - intros H. rewrite Hres, H. done.
  - intros H. rewrite Hres. unfold average. rewrite H. done.
  - intros H. rewrite Hres. unfold average. rewrite H. done.
Qed.

Lemma checkWaterPresence_threshold_witness :
  Forall adc_range (upcoming_adc 5 threshold_bench) /\
  result checkWaterPresence threshold_bench = false /\
  Forall adc_range (upcoming_adc 5 wet_bench) /\
  result checkWaterPresence wet_bench = true /\
  Forall adc_range (upcoming_adc 5 dry_bench) /\
  result checkWaterPresence dry_bench = false.
Proof.
  assert (forall echo v, 0 <= v <= 1023 ->
            Forall adc_range (upcoming_adc 5 (bench no_bottle echo
                                                (fun _ => v)))) as Hany.
  { intros echo v Hv. unfold upcoming_adc. simpl.
    repeat (constructor; [exact Hv|]). constructor. }
  assert (Forall adc_range (upcoming_adc 5 threshold_bench)) as H500
    by (apply Hany; lia).
  assert (Forall adc_range (upcoming_adc 5 wet_bench)) as H520
    by (apply Hany; lia).
  assert (Forall adc_range (upcoming_adc 5 dry_bench)) as H100
    by (apply Hany; lia).
  destruct (checkWaterPresence_threshold threshold_bench H500)
    as (_ & _ & _ & _ & _ & Hmid & _).
  destruct (checkWaterPresence_threshold wet_bench H520)
    as (_ & _ & _ & _ & _ & _ & Hhigh & _).
  destruct (checkWaterPresence_threshold dry_bench H100)
    as (_ & _ & _ & _ & _ & _ & _ & Hlow).
  refine (conj H500 (conj (Hmid eq_refl) (conj H520 (conj (Hhigh eq_refl)
            (conj H100 (Hlow eq_refl)))))).
Defined.

(** ** Reading pin levels and servo commands off the trace *)

(** After the events [es], a pin holds the level last driven on it, or the
    level it had before when [es] never drives it. *)
Lemma lookup_driven (pin : Z) (es : list Event) (p : gmap Z bool) :
  foldl (flip drive) p es !! pin =
  match last (levels_on pin es) with
  | Some v => Some v
  | None => p !! pin
  end.
Proof.
  revert p. induction es as [|e es IH]; intros p; [done|].
  simpl. rewrite IH. unfold levels_on. simpl.
  destruct e as [|q v| | | | | | | | | | | | | | | | | |]; simpl; try done.
  destruct (decide (q = pin)) as [->|Hq]; simpl.
  - fold (levels_on pin es).
    destruct (levels_on pin es) as [|v' l] eqn:E; simpl.
    + by rewrite lookup_insert_eq.
    + rewrite !last_cons. by destruct (last l).
  - destruct (last _); [done|]. by rewrite lookup_insert_ne.
Qed.

Lemma pins_push (es : list Event) (w : World) :
  pins (push es w) = foldl (flip drive) (pins w) es.
Proof. reflexivity. Qed.

Lemma trace_push (es : list Event) (w : World) :
  trace (push es w) = trace w ++ es.
Proof. reflexivity. Qed.

Lemma levels_on_app (pin : Z) (es1 es2 : list Event) :
  levels_on pin (es1 ++ es2) = levels_on pin es1 ++ levels_on pin es2.
Proof. apply omap_app. Qed.

Lemma servo_angles_app (es1 es2 : list Event) :
  servo_angles (es1 ++ es2) = servo_angles es1 ++ servo_angles es2.
Proof. apply omap_app. Qed.

Lemma delays_app (es1 es2 : list Event) :
  delays (es1 ++ es2) = delays es1 ++ delays es2.
Proof. apply omap_app. Qed.

Lemma levels_on_sampling (pin : Z) (vs : list Z) :
  levels_on pin (sampling vs) = [].
Proof. induction vs as [|v vs IH]; [done|]. exact IH. Qed.

Lemma servo_angles_sampling (vs : list Z) : servo_angles (sampling vs) = [].
Proof. induction vs as [|v vs IH]; [done|]. exact IH. Qed.

Lemma delays_sampling (vs : list Z) :
  delays (sampling vs) = replicate (length vs) 10.
Proof. induction vs as [|v vs IH]; [done|]. simpl. by f_equal. Qed.

(** The part of [inspectBottle] before the accept/reject branch, and the
    part after it. *)
Lemma inspecting_split (w : World) :
  let height := height_seen w in
  let size := classifyBottleSize height in
  let hasWater := water_seen w in
  let accepted := negb hasWater in
  inspecting w =
  (measuring (echo_feed w (echo_n w)) ++ sampling (upcoming_adc 5 w) ++
   displaying height size hasWater accepted ++ indicating accepted)
  ++ actuating accepted ++ logging height size hasWater accepted.
Proof. unfold inspecting. cbv zeta. by rewrite <- !app_assoc. Qed.

(** The levels [inspectBottle] drives on the two LEDs. *)
Lemma levels_on_inspecting (w : World) :
  levels_on GREEN_LED (inspecting w) = [negb (water_seen w)] /\
  levels_on RED_LED (inspecting w) = [water_seen w].
Proof.
  unfold inspecting. cbv zeta.
  generalize (height_seen w). intros h.
  generalize (classifyBottleSize h). intros size.
  generalize (echo_feed w (echo_n w)). intros echo.
  rewrite !levels_on_app, !levels_on_sampling.
  by destruct (water_seen w).
Qed.

(** The servo commands of [inspectBottle]. *)
Lemma servo_angles_inspecting (w : World) :
  servo_angles (inspecting w) =
  if water_seen w then [] else ramp 0 2 91 ++ ramp 180 (-2) 91.
Proof.
  unfold inspecting. cbv zeta.
  generalize (height_seen w). intros h.
  generalize (classifyBottleSize h). intros size.
  generalize (echo_feed w (echo_n w)). intros echo.
  rewrite !servo_angles_app, servo_angles_sampling.
  by destruct (water_seen w).
Qed.

Lemma water_seen_after_measuring (w : World) :
  result checkWaterPresence (exec measureBottleHeight w) = water_seen w.
Proof.
  by rewrite result_checkWaterPresence, exec_measureBottleHeight,
    water_seen_after.
Qed.

Lemma water_seen_with_echo (echoes : nat -> Z) (w : World) :
  water_seen (with_echo echoes w) = water_seen w.
Proof.
  unfold water_seen, upcoming_adc. cbn [adc_feed adc_n with_echo]. reflexivity.
Qed.

(** ** Accept decision *)

(** C1. The accept decision of [inspectBottle], as it is shown on the
    accept LED and printed in the status line, is the negation of what
    [checkWaterPresence] returned; it is the same whatever echo durations
    (hence heights and size categories) the ultrasonic sensor reports. *)
Theorem accept_is_not_hasWater (w : World) (echoes : nat -> Z) :
  let hasWater := result checkWaterPresence (exec measureBottleHeight w) in
  accept_shown w = Some (negb hasWater) /\
  last (trace (exec inspectBottle w)) =
    Some (ESerialPrintln (if negb hasWater then "ACCEPTED" else "REJECTED")) /\
  accept_shown (with_echo echoes w) = accept_shown w.
Proof.
  intros hasWater. subst hasWater. rewrite water_seen_after_measuring.
  assert (forall w', accept_shown w' = Some (negb (water_seen w'))) as Hshown.
  { intros w'. unfold accept_shown.
    rewrite exec_inspectBottle, pins_push, lookup_driven.
    by rewrite (proj1 (levels_on_inspecting w')). }
  split_and!.
  - apply Hshown.
  - rewrite exec_inspectBottle, trace_push. unfold inspecting, logging.
    cbv zeta. rewrite !app_assoc.
    by rewrite (last_app _ [_; _; _; _; _; _; _; _; _]).
  - rewrite !Hshown. by rewrite water_seen_with_echo.
Qed.

(** ** Gate actuator *)

Lemma ramp_closed_form (start step : Z) (n : nat) :
  ramp start step n = (fun i => start + step * i) <$> seqZ 0 (Z.of_nat n).
Proof.
  apply list_eq. intros i. rewrite list_lookup_fmap.
  destruct (decide (i < n)%nat) as [Hi|Hi].
  - rewrite ramp_lookup by done. rewrite lookup_seqZ_lt by lia. simpl.
    f_equal; lia.
  - rewrite (lookup_ge_None_2 (ramp _ _ _)) by (rewrite ramp_length; lia).
    by rewrite lookup_seqZ_ge by lia.
Qed.

Lemma ramp_last (start step : Z) (n : nat) :
  last (ramp start step (S n)) = Some (start + step * Z.of_nat n).
Proof.
  rewrite last_lookup, ramp_length. change (pred (S n)) with n.
  by rewrite ramp_lookup by lia.
Qed.

(** Consecutive terms of a ramp differ by exactly [step]. *)
Lemma ramp_steps (start step : Z) (n : nat) :
  Forall (fun p => p.2 = p.1 + step)
    (zip (ramp start step n) (tail (ramp start step n))).
Proof.
  revert start. induction n as [|n IH]; intros start; [constructor|].
  destruct n as [|n]; [constructor|].
  simpl. constructor; [done|]. apply (IH (start + step)).
Qed.

Lemma ramp_bounds (start step lo hi : Z) (n : nat) :
  lo <= start <= hi -> lo <= start + step * (Z.of_nat n - 1) <= hi ->
  Forall (fun a => lo <= a <= hi) (ramp start step n).
Proof.
  intros H0 H1. apply Forall_lookup. intros i a Hia.
  assert (i < n)%nat as Hi.
  { apply lookup_lt_Some in Hia. by rewrite ramp_length in Hia. }
  rewrite ramp_lookup in Hia by done. injection Hia as <-.
  destruct (Z.le_gt_cases 0 step); nia.
Qed.

(** C7. [openGate] commands the angles 0, 2, 4, ..., 180 in this order and
    [closeGate] the angles 180, 178, ..., 0, each command followed by a
    20 ms pause and nothing else: consecutive angles differ by exactly 2
    degrees, every angle lies in [0, 180], and each sweep ends at the
    opposite endpoint. *)
Theorem gate_sweeps (w : World) :
  let up := ramp SERVO_CLOSED_ANGLE 2 91 in
  let down := ramp SERVO_OPEN_ANGLE (-2) 91 in
  trace (exec openGate w) = trace w ++ sweep up /\
  trace (exec closeGate w) = trace w ++ sweep down /\
  servo_angles (sweep up) = up /\ servo_angles (sweep down) = down /\
  delays (sweep up) = replicate 91 20 /\
  delays (sweep down) = replicate 91 20 /\
  up = (fun i => 2 * i) <$> seqZ 0 91 /\
  down = (fun i => 180 - 2 * i) <$> seqZ 0 91 /\
  Forall (fun p => p.2 = p.1 + 2) (zip up (tail up)) /\
  Forall (fun p => p.2 = p.1 - 2) (zip down (tail down)) /\
  Forall (fun a => SERVO_CLOSED_ANGLE <= a <= SERVO_OPEN_ANGLE) (up ++ down) /\
  head up = Some SERVO_CLOSED_ANGLE /\ last up = Some SERVO_OPEN_ANGLE /\
  head down = Some SERVO_OPEN_ANGLE /\ last down = Some SERVO_CLOSED_ANGLE.
Proof.
  intros up down. subst up down. unfold SERVO_CLOSED_ANGLE, SERVO_OPEN_ANGLE.
  split_and!.
  - by rewrite (writes_exec _ _ w writes_openGate).
  - by rewrite (writes_exec _ _ w writes_closeGate).
  - apply servo_angles_sweep.
  - apply servo_angles_sweep.
  - by rewrite delays_sweep, ramp_length.
  - by rewrite delays_sweep, ramp_length.
  - rewrite ramp_closed_form. apply list_fmap_ext. intros; lia.
  - rewrite ramp_closed_form. apply list_fmap_ext. intros; lia.
  - apply ramp_steps.
  - apply (ramp_steps 180 (-2)).
  - apply Forall_app. split; apply ramp_bounds; lia.
  - done.
  - apply (ramp_last 0 2 90).
  - done.
  - apply (ramp_last 180 (-2) 90).
Qed.

(** ** Accept and reject paths *)

Lemma last_angle_push (es : list Event) (w : World) :
  last_angle (push es w) =
  match last (servo_angles es) with
  | Some a => Some a
  | None => last_angle w
  end.
Proof.
  unfold last_angle. rewrite trace_push, servo_angles_app, last_app.
  by destruct (last (servo_angles es)).
Qed.

Lemma last_angle_advance (de da : nat) (w : World) :
  last_angle (advance de da w) = last_angle w.
Proof. reflexivity. Qed.

(** C8. When the bottle is rejected, between the sensor readings and the
    log line [inspectBottle] emits the single 1000 ms reject tone and
    nothing else: no servo command (so the last commanded angle is
    unchanged) and no 5000 ms hold.  When it is accepted, it emits, in
    this order, the opening sweep, the accept tone, the 5000 ms hold and
    the closing sweep.  The rest of the call commands neither the servo
    nor the buzzer, and pauses only for the five 10 ms sampling gaps. *)
Theorem inspectBottle_paths (w : World) :
  let accepted := negb (result checkWaterPresence (exec measureBottleHeight w)) in
  exists before after : list Event,
    trace (exec inspectBottle w) =
      trace w ++ before ++
      (if accepted
       then sweep (ramp 0 2 91) ++ (tone 200 ++ [EDelay 100] ++ tone 200)
            ++ [EDelay 5000] ++ sweep (ramp 180 (-2) 91)
       else [EDigitalWrite BUZZER_PIN HIGH; EDelay 1000;
             EDigitalWrite BUZZER_PIN LOW])
      ++ after /\
    servo_angles (before ++ after) = [] /\
    levels_on BUZZER_PIN (before ++ after) = [] /\
    delays (before ++ after) = replicate 5 10 /\
    servo_angles (drop (length (trace w)) (trace (exec inspectBottle w))) =
      (if accepted then ramp 0 2 91 ++ ramp 180 (-2) 91 else []) /\
    last_angle (exec inspectBottle w) =
      (if accepted then Some SERVO_CLOSED_ANGLE else last_angle w).
Proof.
  intros accepted. subst accepted. rewrite water_seen_after_measuring.
  rewrite exec_inspectBottle, last_angle_push, last_angle_advance, trace_push.
  rewrite drop_app_length, servo_angles_inspecting.
  rewrite inspecting_split. cbv zeta.
  eexists _, _. split; [reflexivity|].
  generalize (height_seen w). intros h.
  generalize (classifyBottleSize h). intros size.
  generalize (echo_feed w (echo_n w)). intros echo.
  rewrite <- !app_assoc.
  rewrite !servo_angles_app, !levels_on_app, !delays_app.
  rewrite servo_angles_sampling, levels_on_sampling, delays_sampling.
  rewrite upcoming_adc_length.
  split_and!; try done.
  - by destruct (water_seen w).
  - destruct (water_seen w); [done|]. simpl negb. cbv iota.
    rewrite last_app. by rewrite (ramp_last 180 (-2) 90).
Qed.

(** ** Indicator LEDs *)

Lemma writes_setup : writes setup booting.
Proof.
  unfold setup, initializeLCD, startupBeep, digitalWrite, pinMode, delay,
    servo_attach, servo_write, lcd_clear, lcd_setCursor, lcd_print,
    serial_println.
  writes_by_structure.
Qed.

Lemma exec_bottleDetected (w : World) :
  pins (exec bottleDetected w) = pins w /\
  trace (exec bottleDetected w) =
    trace w ++ [EDigitalRead IR_SENSOR_PIN (raw (ir_feed w (ir_n w)))].
Proof.
  unfold exec, bottleDetected.
  by destruct (bottleDetected_step _ _).
Qed.

Lemma pins_waitForPass (fuel : nat) (w w' : World) :
  waitForPass fuel w = Some w' -> pins w' = pins w.
Proof.
  revert w. induction fuel as [|fuel IH]; intros w; [done|].
  simpl. pose proof (exec_bottleDetected w) as [Hp _]. unfold exec in Hp.
  destruct (bottleDetected w) as [[] w1]; simpl in Hp.
  - intros H. apply IH in H. by rewrite H.
  - intros [= <-]. done.
Qed.

(** Outside [inspectBottle], a pass through [loop] drives no pin. *)
Lemma pins_loop (fuel : nat) (w w' : World) :
  loop fuel w = Some w' ->
  pins w' = pins w \/ pins w' = pins (exec inspectBottle (exec bottleDetected w)).
Proof.
  unfold loop. pose proof (exec_bottleDetected w) as [Hp _]. unfold exec in *.
  destruct (bottleDetected w) as [[] w1]; simpl in *.
  - destruct (waitForPass fuel _) as [w2|] eqn:E; [|done].
    apply pins_waitForPass in E. intros [= <-]. by right.
  - intros [= <-]. by left.
Qed.



(** ** Gate position between inspections *)

Lemma last_angle_emit (e : Event) (w : World) :
  last_angle (exec (emit e) w) =
  match e with EServoWrite a => Some a | _ => last_angle w end.
Proof.
  rewrite (writes_exec _ _ w (writes_emit e)), last_angle_push.
  by destruct e.
Qed.

Lemma last_angle_bottleDetected (w : World) :
  last_angle (exec bottleDetected w) = last_angle w.
Proof.
  unfold last_angle. rewrite (proj2 (exec_bottleDetected w)).
  by rewrite servo_angles_app, app_nil_r.
Qed.

Lemma last_angle_setup (w : World) :
  last_angle (exec setup w) = Some SERVO_CLOSED_ANGLE.
Proof. by rewrite (writes_exec _ _ w writes_setup), last_angle_push. Qed.

Lemma last_angle_inspectBottle (w : World) :
  last_angle w = Some SERVO_CLOSED_ANGLE ->
  last_angle (exec inspectBottle w) = Some SERVO_CLOSED_ANGLE.
Proof.
  intros H.
  rewrite exec_inspectBottle, last_angle_push, last_angle_advance.
  rewrite servo_angles_inspecting.
  destruct (water_seen w); [exact H|].
  rewrite last_app. by rewrite (ramp_last 180 (-2) 90).
Qed.

(** Between the calls the sketch makes, the servo was last told to close. *)
Lemma reachable_gate_closed (w : World) :
  reachable w -> last_angle w = Some SERVO_CLOSED_ANGLE.
Proof.
  induction 1 as [w0|w _ IH|w _ IH|ms w _ IH|w _ IH].
  - apply last_angle_setup.
  - by rewrite last_angle_bottleDetected.
  - by apply last_angle_inspectBottle.
  - unfold delay. by rewrite last_angle_emit.
  - unfold lcd_clear. by rewrite last_angle_emit.
Qed.

Lemma reachable_waitForPass (fuel : nat) (w w' : World) :
  reachable w -> waitForPass fuel w = Some w' -> reachable w'.
Proof.
  revert w. induction fuel as [|fuel IH]; intros w Hw; [done|].
  simpl. pose proof (reach_poll w Hw) as Hp. unfold exec in Hp.
  destruct (bottleDetected w) as [[] w1]; simpl in Hp.
  - apply IH. by apply reach_delay.
  - by intros [= <-].
Qed.

(** Every pass through [loop] stays within the reachable worlds. *)
Lemma reachable_loop (fuel : nat) (w w' : World) :
  reachable w -> loop fuel w = Some w' -> reachable w'.
Proof.
  intros Hw. unfold loop.
  pose proof (reach_poll w Hw) as Hp. unfold exec in Hp.
  destruct (bottleDetected w) as [[] w1]; simpl in Hp.
  - destruct (waitForPass fuel _) as [w2|] eqn:E; [|done].
    apply reachable_waitForPass in E; [|by apply reach_inspect].
    intros [= <-].
    change (reachable (exec (delay 10) (exec lcd_clear (exec (delay 2000) w2)))).
    by apply reach_delay, reach_clear, reach_delay.
  - intros [= <-]. by apply reach_delay.
Qed.

Lemma reachable_loops (n fuel : nat) (w w' : World) :
  reachable w -> loops n fuel w = Some w' -> reachable w'.
Proof.
  revert w. induction n as [|n IH]; intros w Hw; simpl.
  - by intros [= <-].
  - destruct (loop fuel w) as [w1|] eqn:E; [|done]. simpl.
    apply IH. by eapply reachable_loop.
Qed.

(** C10. In every world the sketch reaches after [setup] (which commands
    the closed angle 0), a complete call of [inspectBottle] -- accepting
    or rejecting -- ends with 0 as the last angle commanded to the servo,
    as it was before the call. *)
Theorem inspectBottle_leaves_gate_closed (w : World) :
  reachable w ->
  last_angle w = Some SERVO_CLOSED_ANGLE /\
  last_angle (exec inspectBottle w) = Some SERVO_CLOSED_ANGLE.
Proof.
  intros Hw. split.
  - by apply reachable_gate_closed.
  - by apply reachable_gate_closed, reach_inspect.
Qed.

Lemma inspectBottle_leaves_gate_closed_witness :
  reachable (exec setup wet_line) /\
  last_angle (exec inspectBottle (exec setup wet_line)) =
    Some SERVO_CLOSED_ANGLE.
Proof.
  split; [constructor|].
  apply (inspectBottle_leaves_gate_closed (exec setup wet_line)).
  constructor.
Defined.

(** ** Debounced detector *)

(** The world-level call is the step on the static variables, fed with
    the next reading. *)
Lemma bottleDetected_is_step (w : World) :
  let k := ir_feed w (ir_n w) in
  result bottleDetected w = (bottleDetected_step (debounce w) k).1 /\
  debounce (exec bottleDetected w) = (bottleDetected_step (debounce w) k).2 /\
  ir_n (exec bottleDetected w) = S (ir_n w).
Proof.
  unfold result, exec, bottleDetected. cbv zeta.
  by destruct (bottleDetected_step _ _).
Qed.

(** Calling [bottleDetected] [n] times in a world is [polls] on the static
    variables and the next [n] readings. *)
Lemma poll_polls (n : nat) (w : World) :
  (poll n w).1 = polls (debounce w) (upcoming_ticks n w).
Proof.
  revert w. induction n as [|n IH]; intros w; [done|].
  destruct (bottleDetected_is_step w) as (Hr & Hs & Hn).
  assert (ir_feed (exec bottleDetected w) = ir_feed w) as Hf.
  { unfold exec, bottleDetected. by destruct (bottleDetected_step _ _). }
  assert (upcoming_ticks (S n) w =
          ir_feed w (ir_n w) :: upcoming_ticks n (exec bottleDetected w))
    as ->.
  { unfold upcoming_ticks. simpl. rewrite Hf, Hn. f_equal.
    rewrite <- fmap_S_seq, <- list_fmap_compose. apply list_fmap_ext.
    intros _ i _. simpl. f_equal. lia. }
  simpl. specialize (IH (exec bottleDetected w)).
  unfold result, exec in *.
  destruct (bottleDetected w) as [r w1]. simpl in *.
  destruct (poll n w1) as [rs w2]. simpl in *.
  destruct (bottleDetected_step _ _) as [r' s']. simpl in *.
  by rewrite Hr, IH, Hs.
Qed.

(** A poll that reads the level of the previous poll, LOW, with the static
    time stamp [t0] less than 2^32 ms old: the answer is whether more than
    50 ms have passed since [t0], and the static variables stay as they
    are. *)
Lemma step_held_low (t0 : Z) (k : Tick) :
  raw k = LOW -> 0 <= t_now k - t0 < 2 ^ 32 ->
  bottleDetected_step (mkDebounce t0 LOW) k =
  (bool_decide (t_now k - t0 > 50), mkDebounce t0 LOW).
Proof.
  intros Hraw Ht. unfold bottleDetected_step. simpl. rewrite Hraw. simpl.
  rewrite uint32_small by done. by case_bool_decide.
Qed.

(** The poll that first reads LOW after HIGH stamps the time and answers
    false. *)
Lemma step_falling_edge (s : Debounce) (k : Tick) :
  lastState s = HIGH -> raw k = LOW -> 0 <= t_now k - t_edge k <= 50 ->
  bottleDetected_step s k = (false, mkDebounce (t_edge k) LOW).
Proof.
  intros Hs Hraw Ht. unfold bottleDetected_step. rewrite Hs, Hraw. simpl.
  rewrite uint32_small by lia. rewrite bool_decide_false by lia. done.
Qed.

Lemma polls_held_low (t0 : Z) (ks : list Tick) :
  Forall (fun k => raw k = LOW /\ 0 <= t_now k - t0 < 2 ^ 32) ks ->
  polls (mkDebounce t0 LOW) ks =
  (fun k => bool_decide (t_now k - t0 > 50)) <$> ks.
Proof.
  induction 1 as [|k ks [Hraw Ht] _ IH]; [done|].
  simpl. rewrite step_held_low by done. by rewrite IH.
Qed.

Lemma count_true_fmap {A} (P : A -> Prop) `{!forall x, Decision (P x)}
    (l : list A) :
  length (filter (fun r => r = true) ((fun x => bool_decide (P x)) <$> l)) =
  length (filter P l).
Proof.
  induction l as [|x l IH]; [done|].
  rewrite fmap_cons, !filter_cons.
  destruct (decide (P x)) as [HP|HP].
  - rewrite (bool_decide_true _ HP). rewrite decide_True by done.
    simpl. by rewrite IH.
  - rewrite (bool_decide_false _ HP). rewrite decide_False by done.
    exact IH.
Qed.

(** The polls of [lingering_bottle]: one stable-LOW interval of 80 ms,
    three detections. *)
Lemma bottleDetected_repeats :
  stable_low lingering_bottle /\
  polls power_on lingering_bottle =
    [false; false; false; false; false; false; true; true; true] /\
  detections power_on lingering_bottle = 3%nat /\
  ~ once_per_interval power_on lingering_bottle.
Proof.
  assert (stable_low lingering_bottle) as Hstable.
  { split; [by repeat constructor|].
    eexists _, _. split_and!; [reflexivity..|]. simpl. lia. }
  split_and!; [exact Hstable | reflexivity | reflexivity |].
  intros H. specialize (H Hstable). discriminate H.
Qed.

(** C5 (amended). In a stable-LOW interval -- a poll [k0] that first reads
    LOW after HIGH, its two clock readings at most 50 ms apart, followed
    by polls [ks] that all read LOW, each less than 2^32 ms after the
    time [k0] stamped -- the detector answers false at [k0] and at every
    poll taken up to 50 ms after that time, and true at every poll taken
    more than 50 ms after it: the number of detections is the number of
    such polls, not one. *)
Theorem bottleDetected_level_triggered (s : Debounce) (k0 : Tick)
    (ks : list Tick) :
  lastState s = HIGH ->
  raw k0 = LOW ->
  0 <= t_now k0 - t_edge k0 <= 50 ->
  Forall (fun k => raw k = LOW /\ 0 <= t_now k - t_edge k0 < 2 ^ 32) ks ->
  polls s (k0 :: ks) =
    false :: ((fun k => bool_decide (t_now k - t_edge k0 > 50)) <$> ks) /\
  detections s (k0 :: ks) =
    length (filter (fun k => t_now k - t_edge k0 > 50) ks).
Proof.
  intros Hs Hraw Ht Hks.
  assert (polls s (k0 :: ks) =
          false :: ((fun k => bool_decide (t_now k - t_edge k0 > 50)) <$> ks))
    as Hpolls.
  { simpl. rewrite step_falling_edge by done. by rewrite polls_held_low. }
  split; [exact Hpolls|].
  unfold detections. rewrite Hpolls, filter_cons, decide_False by done.
  apply (count_true_fmap (fun k => t_now k - t_edge k0 > 50)).
Qed.

Lemma bottleDetected_level_triggered_witness :
  lastState power_on = HIGH /\
  raw first_low = LOW /\
  0 <= t_now first_low - t_edge first_low <= 50 /\
  Forall (fun k => raw k = LOW /\ 0 <= t_now k - t_edge first_low < 2 ^ 32)
    later_lows /\
  detections power_on (first_low :: later_lows) =
    length (filter (fun k => t_now k - t_edge first_low > 50) later_lows).
Proof.
  assert (0 <= t_now first_low - t_edge first_low <= 50) as Ht
    by (simpl; lia).
  assert (Forall (fun k => raw k = LOW /\
                           0 <= t_now k - t_edge first_low < 2 ^ 32)
            later_lows) as Hks
    by (repeat constructor; simpl; lia).
  refine (conj eq_refl (conj eq_refl (conj Ht (conj Hks _)))).
  exact (proj2 (bottleDetected_level_triggered power_on first_low later_lows
                  eq_refl eq_refl Ht Hks)).
Defined.

(** A poll answers false when the reading comes fewer than 50 ms after
    the static time stamp, or shows HIGH. *)
Lemma step_quiet (s : Debounce) (k : Tick) (l : bool) (c : option Z) :
  lastState s = l ->
  from_option (fun t => lastDebounce s = t) (l = HIGH) c ->
  (if decide (raw k = l)
   then from_option (fun t => within_window t k) True c
   else within_window (t_edge k) k) ->
  let s' := (bottleDetected_step s k).2 in
  (bottleDetected_step s k).1 = false /\
  lastState s' = raw k /\
  lastDebounce s' = (if decide (raw k = l) then lastDebounce s else t_edge k).
Proof.
  intros Hl Hc Hk. unfold bottleDetected_step. rewrite Hl.
  destruct (decide (raw k = l)) as [Heq|Hne].
  - rewrite Heq. rewrite eqb_reflx. simpl.
    destruct c as [t|]; simpl in *.
    + unfold within_window in Hk. subst t.
      rewrite uint32_small by lia. rewrite bool_decide_false by lia. done.
    + rewrite Hc. by destruct (bool_decide _).
  - assert (eqb (raw k) l = false) as -> by (by apply eqb_false_iff).
    simpl. unfold within_window in Hk.
    rewrite uint32_small by lia. rewrite bool_decide_false by lia. done.
Qed.

Lemma polls_chatter (ks : list Tick) (s : Debounce) (l : bool)
    (c : option Z) :
  lastState s = l ->
  from_option (fun t => lastDebounce s = t) (l = HIGH) c ->
  chatter l c ks ->
  Forall (fun r => r = false) (polls s ks).
Proof.
  revert s l c. induction ks as [|k ks IH]; intros s l c Hl Hc Hks;
    [constructor|].
  simpl in Hks.
  assert (if decide (raw k = l)
          then from_option (fun t => within_window t k) True c
          else within_window (t_edge k) k) as Hk.
  { by destruct (decide (raw k = l)); destruct Hks. }
  destruct (step_quiet s k l c Hl Hc Hk) as (Hr & Hs1 & Hs2).
  simpl. destruct (bottleDetected_step s k) as [r s']. simpl in *.
  constructor; [exact Hr|].
  destruct (decide (raw k = l)) as [Heq|Hne].
  - apply (IH s' l c); [congruence| |by destruct Hks].
    destruct c; simpl in *; [congruence|done].
  - apply (IH s' (raw k) (Some (t_edge k))); [done|done|by destruct Hks].
Qed.

(** No call answers true while no level is seen to hold for 50 ms. *)
Lemma chatter_never_detects (s : Debounce) (ks : list Tick) :
  lastState s = HIGH ->
  chatter HIGH None ks ->
  Forall (fun r => r = false) (polls s ks) /\ detections s ks = 0%nat.
Proof.
  intros Hs Hks.
  assert (Forall (fun r => r = false) (polls s ks)) as H.
  { by apply (polls_chatter ks s HIGH None). }
  split; [exact H|].
  unfold detections. induction H as [|r rs -> _ IH]; [done|].
  by rewrite filter_cons, decide_False.
Qed.

(** With a change still to come fewer than 50 ms after the last one at
    [t0], the present time [t] is itself fewer than 50 ms after [t0]. *)
Lemma next_change_bound (ks : list Tick) (l : bool) (t0 t : Z) :
  clocked t ks -> toggling l (Some t0) ks ->
  Exists (fun k => raw k <> l) ks -> t - t0 < 50.
Proof.
  revert t. induction ks as [|k ks IH]; intros t Hclock Htog Hex;
    [by apply Exists_nil in Hex|].
  simpl in Hclock, Htog. destruct Hclock as (Ht & Hk & Hclock).
  destruct (decide (raw k = l)) as [Heq|Hne].
  - destruct Htog as [Hmore Htog].
    specialize (IH (t_now k) Hclock Htog (Hmore (mk_is_Some _ _ eq_refl))).
    lia.
  - destruct Htog as [Hclose _]. simpl in Hclose. lia.
Qed.

(** A level that keeps toggling is never seen to hold for 50 ms. *)
Lemma toggling_chatter (ks : list Tick) (l : bool) (c : option Z) (t : Z) :
  clocked t ks -> from_option (fun t0 => t0 <= t) True c ->
  toggling l c ks -> chatter l c ks.
Proof.
  revert l c t. induction ks as [|k ks IH]; intros l c t Hclock Hc Htog;
    [done|].
  simpl in Hclock, Htog |- *. destruct Hclock as (Ht & Hk & Hclock).
  destruct (decide (raw k = l)) as [Heq|Hne].
  - destruct Htog as [Hmore Htog]. split.
    + destruct c as [t0|]; [|done]. simpl in *.
      pose proof (next_change_bound ks l t0 (t_now k) Hclock Htog
                    (Hmore (mk_is_Some _ _ eq_refl))).
      unfold within_window. lia.
    + apply (IH l c (t_now k)); [done| |done].
      destruct c; simpl in *; [lia|done].
  - destruct Htog as [_ Htog]. split.
    + unfold within_window. lia.
    + apply (IH (raw k) (Some (t_edge k)) (t_now k)); [done| |done].
      simpl. lia.
Qed.

(** C6. On every sequence of polls in which the sensor level keeps toggling
    faster than every 50 ms -- each change is read fewer than 50 ms after
    the previous one, and the signal has not settled -- no call of
    [bottleDetected] returns true. *)
Theorem toggling_never_detects (s : Debounce) (ks : list Tick) (t : Z) :
  lastState s = HIGH ->
  clocked t ks ->
  toggling HIGH None ks ->
  Forall (fun r => r = false) (polls s ks) /\ detections s ks = 0%nat.
Proof.
  intros Hs Hclock Htog.
  assert (Forall (fun r => r = false) (polls s ks)) as H.
  { apply (polls_chatter ks s HIGH None); [done..|].
    by apply (toggling_chatter ks HIGH None t). }
  split; [exact H|].
  unfold detections. induction H as [|r rs -> _ IH]; [done|].
  by rewrite filter_cons, decide_False.
Qed.

Lemma toggling_never_detects_witness :
  lastState power_on = HIGH /\
  clocked 0 bouncing /\
  toggling HIGH None bouncing /\
  detections power_on bouncing = 0%nat.
Proof.
  assert (clocked 0 bouncing) as Hclock.
  { unfold bouncing. simpl. repeat split; lia. }
  assert (toggling HIGH None bouncing) as Htog.
  { unfold bouncing. simpl. repeat split; try lia;
      intros _; repeat first [by apply Exists_cons_hd | apply Exists_cons_tl]. }
  refine (conj eq_refl (conj Hclock (conj Htog _))).
  exact (proj2 (toggling_never_detects power_on bouncing 0 eq_refl
                  Hclock Htog)).
Defined.

(** ** The scenarios, run *)

(** A dry bottle of about 10 cm: Small, accepted, the gate sweeps open and
    closed again. *)
Example dry_bottle_accepted :
  classifyBottleSize (result measureBottleHeight dry_bench) = "Small" /\
  accept_shown dry_bench = Some HIGH /\
  pins (exec inspectBottle dry_bench) !! RED_LED = Some LOW /\
  servo_angles (trace (exec inspectBottle dry_bench)) =
    ramp 0 2 91 ++ ramp 180 (-2) 91 /\
  last (trace (exec inspectBottle dry_bench)) = Some (ESerialPrintln "ACCEPTED").
Proof. by vm_compute. Qed.

(** A bottle of about 30 cm holding liquid: Large, rejected, the gate never
    moves and the only tone is the 1000 ms one. *)
Example wet_bottle_rejected :
  classifyBottleSize (result measureBottleHeight wet_bench) = "Large" /\
  accept_shown wet_bench = Some LOW /\
  pins (exec inspectBottle wet_bench) !! RED_LED = Some HIGH /\
  servo_angles (trace (exec inspectBottle wet_bench)) = [] /\
  delays (trace (exec inspectBottle wet_bench)) = [10; 10; 10; 10; 10; 1000] /\
  last (trace (exec inspectBottle wet_bench)) = Some (ESerialPrintln "REJECTED").
Proof. by vm_compute. Qed.

(** The bouncing contact is never reported. *)
Example bouncing_polls :
  polls power_on bouncing = [false; false; false; false; false; false; false].
Proof. reflexivity. Qed.

(** * Further properties of the sketch *)

(** ** The debounced detector *)

(** A HIGH reading is never reported as a bottle, whatever the static
    variables and the clock say, and the level remembered is HIGH again. *)
Lemma step_high (s : Debounce) (k : Tick) :
  raw k = HIGH ->
  (bottleDetected_step s k).1 = false /\
  lastState (bottleDetected_step s k).2 = HIGH.
Proof.
  intros Hraw. unfold bottleDetected_step. rewrite Hraw. simpl.
  by destruct (bool_decide _).
Qed.

(** X1. The poll that reads a level different from the one remembered
    stamps the time and answers false: a change is never reported at the
    poll that sees it (the two clock readings of one call being at most
    50 ms apart). *)
Theorem change_is_stamped_not_reported (s : Debounce) (k : Tick) :
  raw k <> lastState s ->
  0 <= t_now k - t_edge k <= 50 ->
  bottleDetected_step s k = (false, mkDebounce (t_edge k) (raw k)).
Proof.
  intros Hne Ht. unfold bottleDetected_step.
  assert (eqb (raw k) (lastState s) = false) as ->
    by (by apply eqb_false_iff).
  simpl. rewrite uint32_small by lia. by rewrite bool_decide_false by lia.
Qed.

Lemma change_is_stamped_not_reported_witness :
  raw high_reading <> lastState bottle_seen /\
  0 <= t_now high_reading - t_edge high_reading <= 50 /\
  bottleDetected_step bottle_seen high_reading =
    (false, mkDebounce 5000 HIGH).
Proof.
  assert (raw high_reading <> lastState bottle_seen) as Hne by done.
  assert (0 <= t_now high_reading - t_edge high_reading <= 50) as Ht
    by (simpl; lia).
  refine (conj Hne (conj Ht _)).
  exact (change_is_stamped_not_reported bottle_seen high_reading Hne Ht).
Defined.

(** With more than 50 ms between the two clock readings of one call, the
    call that sees the level fall reports it at once, and leaves the
    level remembered as HIGH. *)
Example slow_call_reports_the_change :
  bottleDetected_step power_on (mkTick LOW 100 200) =
    (true, mkDebounce 100 HIGH).
Proof. reflexivity. Qed.

(** X2. A call whose two clock readings are at most 50 ms apart and that
    answers true changes neither static variable; it answers true only
    on a LOW reading of a level already remembered as LOW, more than
    50 ms (modulo 2^32) after the time stamp [lastDebounce]. *)
Theorem detection_keeps_statics (s : Debounce) (k : Tick) :
  0 <= t_now k - t_edge k <= 50 ->
  (bottleDetected_step s k).1 = true ->
  (bottleDetected_step s k).2 = s /\ raw k = LOW /\ lastState s = LOW /\
  uint32 (t_now k - lastDebounce s) > 50.
Proof.
  intros Ht. destruct (decide (raw k = lastState s)) as [Heq|Hne].
  - unfold bottleDetected_step. rewrite Heq, eqb_reflx. simpl.
    case_bool_decide as Hd; [|done].
    destruct (lastState s) eqn:E; simpl; [done|].
    intros _. destruct s as [d l]. simpl in *. by subst l.
  - unfold bottleDetected_step.
    assert (eqb (raw k) (lastState s) = false) as ->
      by (by apply eqb_false_iff).
    simpl. rewrite uint32_small by lia. by rewrite bool_decide_false by lia.
Qed.

Lemma detection_keeps_statics_witness :
  0 <= t_now (mkTick LOW 1060 1060) - t_edge (mkTick LOW 1060 1060) <= 50 /\
  (bottleDetected_step bottle_seen (mkTick LOW 1060 1060)).1 = true /\
  (bottleDetected_step bottle_seen (mkTick LOW 1060 1060)).2 = bottle_seen.
Proof.
  assert (0 <= t_now (mkTick LOW 1060 1060)
               - t_edge (mkTick LOW 1060 1060) <= 50) as Ht by (simpl; lia).
  refine (conj Ht (conj eq_refl _)).
  exact (proj1 (detection_keeps_statics bottle_seen (mkTick LOW 1060 1060)
                  Ht eq_refl)).
Defined.

(** X3. The debounce survives the roll-over of [millis()]: when the level
    fell at true time [c0] and is polled, still LOW, at true time [c],
    less than 2^32 ms later, the stamp and the reading being these times
    modulo 2^32, the answer is whether [c - c0 > 50]. *)
Theorem debounce_across_rollover (c0 c : Z) (k : Tick) :
  0 <= c - c0 < 2 ^ 32 ->
  raw k = LOW ->
  t_now k = uint32 c ->
  bottleDetected_step (mkDebounce (uint32 c0) LOW) k =
    (bool_decide (c - c0 > 50), mkDebounce (uint32 c0) LOW).
Proof.
  intros Hc Hraw Hnow. unfold bottleDetected_step. simpl.
  rewrite Hraw, Hnow. simpl.
  assert (uint32 (uint32 c - uint32 c0) = c - c0) as ->.
  { unfold uint32. rewrite <- Zminus_mod. by apply Z.mod_small. }
  by case_bool_decide.
Qed.

Lemma debounce_across_rollover_witness :
  0 <= (2 ^ 32 + 40) - (2 ^ 32 - 20) < 2 ^ 32 /\
  raw poll_after_rollover = LOW /\
  t_now poll_after_rollover = uint32 (2 ^ 32 + 40) /\
  bottleDetected_step (mkDebounce (uint32 (2 ^ 32 - 20)) LOW)
    poll_after_rollover =
    (true, mkDebounce (uint32 (2 ^ 32 - 20)) LOW).
Proof.
  assert (0 <= (2 ^ 32 + 40) - (2 ^ 32 - 20) < 2 ^ 32) as Hc by lia.
  refine (conj Hc (conj eq_refl (conj eq_refl _))).
  exact (debounce_across_rollover (2 ^ 32 - 20) (2 ^ 32 + 40)
           poll_after_rollover Hc eq_refl eq_refl).
Defined.

(** ** What a call emits, and what it leaves alone *)

Lemma emitted_push {A} (m : HW A) (w : World) (r : A) (es : list Event)
    (de da : nat) :
  runs m w r es de da -> emitted m w = es.
Proof.
  intros H. unfold emitted, exec. rewrite H. simpl.
  by rewrite drop_app_length.
Qed.

Lemma emitted_writes (m : HW ()) (es : list Event) (w : World) :
  writes m es -> emitted m w = es.
Proof. intros H. by apply (emitted_push m w tt es 0 0). Qed.

Lemma emitted_inspectBottle (w : World) :
  emitted inspectBottle w = inspecting w.
Proof. apply (emitted_push _ _ _ _ _ _ (runs_inspectBottle w)). Qed.

Lemma sum_Z_app (l1 l2 : list Z) : sum_Z (l1 ++ l2) = sum_Z l1 + sum_Z l2.
Proof. unfold sum_Z. induction l1 as [|x l1 IH]; simpl; lia. Qed.

Lemma sum_Z_replicate (n : nat) (x : Z) :
  sum_Z (replicate n x) = Z.of_nat n * x.
Proof. unfold sum_Z. induction n as [|n IH]; simpl; lia. Qed.

Lemma blocked_ms_app (es1 es2 : list Event) :
  blocked_ms (es1 ++ es2) = blocked_ms es1 + blocked_ms es2.
Proof. unfold blocked_ms. by rewrite delays_app, sum_Z_app. Qed.

Lemma blocked_ms_sweep (angles : list Z) :
  blocked_ms (sweep angles) = 20 * Z.of_nat (length angles).
Proof. unfold blocked_ms. rewrite delays_sweep, sum_Z_replicate. lia. Qed.

Lemma blocked_ms_sampling (vs : list Z) :
  blocked_ms (sampling vs) = 10 * Z.of_nat (length vs).
Proof. unfold blocked_ms. rewrite delays_sampling, sum_Z_replicate. lia. Qed.

Lemma inspectBottle_frame (w : World) :
  echo_n (exec inspectBottle w) = (1 + echo_n w)%nat /\
  adc_n (exec inspectBottle w) = (5 + adc_n w)%nat /\
  ir_n (exec inspectBottle w) = ir_n w /\
  debounce (exec inspectBottle w) = debounce w /\
  ir_feed (exec inspectBottle w) = ir_feed w /\
  echo_feed (exec inspectBottle w) = echo_feed w /\
  adc_feed (exec inspectBottle w) = adc_feed w.
Proof. by rewrite exec_inspectBottle. Qed.

(** X4. [inspectBottle] consumes exactly one echo duration and five ADC
    readings, the five it samples being the next five of the ADC in the
    order they come; it never polls the IR sensor, and leaves the
    detector's static variables and all three input oracles as they
    were. *)
Theorem inspectBottle_consumes (w : World) :
  echo_n (exec inspectBottle w) = (1 + echo_n w)%nat /\
  adc_n (exec inspectBottle w) = (5 + adc_n w)%nat /\
  adc_reads (emitted inspectBottle w) = upcoming_adc 5 w /\
  ir_n (exec inspectBottle w) = ir_n w /\
  debounce (exec inspectBottle w) = debounce w /\
  ir_feed (exec inspectBottle w) = ir_feed w /\
  echo_feed (exec inspectBottle w) = echo_feed w /\
  adc_feed (exec inspectBottle w) = adc_feed w.
Proof.
  destruct (inspectBottle_frame w) as (He & Ha & Hn & Hd & Hi & Hf & Hg).
  refine (conj He (conj Ha (conj _ (conj Hn (conj Hd (conj Hi
            (conj Hf Hg))))))).
  clear He Ha Hn Hd Hi Hf Hg.
  rewrite emitted_inspectBottle. unfold inspecting. cbv zeta.
  generalize (height_seen w). intros h.
  generalize (classifyBottleSize h). intros size.
  generalize (echo_feed w (echo_n w)). intros echo.
  pose proof (adc_reads_sampling (upcoming_adc 5 w)) as Hs.
  unfold adc_reads in *. rewrite !omap_app, Hs.
  set (vs := upcoming_adc 5 w). clearbody vs.
  destruct (water_seen w); simpl; by rewrite app_nil_r.
Qed.

(** X5. [inspectBottle] keeps the controller in [delay] for 1050 ms when
    it rejects the bottle (five 10 ms sampling gaps and the 1000 ms tone)
    and for 9190 ms when it accepts it (the sampling gaps, two sweeps of
    91 steps of 20 ms, the 500 ms accept tone and the 5000 ms hold). *)
Theorem inspectBottle_blocks_for (w : World) :
  blocked_ms (emitted inspectBottle w) =
  if result checkWaterPresence (exec measureBottleHeight w)
  then 1050 else 9190.
Proof.
  rewrite water_seen_after_measuring, emitted_inspectBottle.
  unfold inspecting. cbv zeta.
  generalize (height_seen w). intros h.
  generalize (classifyBottleSize h). intros size.
  generalize (echo_feed w (echo_n w)). intros echo.
  rewrite !blocked_ms_app, blocked_ms_sampling, upcoming_adc_length.
  destruct (water_seen w); simpl negb; unfold actuating, accept_path,
    reject_path; rewrite ?blocked_ms_app, ?blocked_ms_sweep, ?ramp_length;
    reflexivity.
Qed.

(** X6. What [inspectBottle] shows on the LCD, what it logs on the serial
    line and what it drives on the LEDs always agree: both print the same
    height and the size [classifyBottleSize] gives for it, "Present" goes
    with "Yes", and the status is "ACCEPTED" on both exactly when the
    green LED is left HIGH and the red one LOW. *)
Theorem display_log_and_leds_agree (w : World) :
  let es := emitted inspectBottle w in
  let h := result measureBottleHeight w in
  let hasWater := result checkWaterPresence (exec measureBottleHeight w) in
  let green := pins (exec inspectBottle w) !! GREEN_LED in
  let red := pins (exec inspectBottle w) !! RED_LED in
  let status := if negb hasWater then "ACCEPTED" else "REJECTED" in
  numbers_shown es = [h; h] /\
  lcd_texts es =
    ["Bottle Detected   "; "H:"; "cm  "; classifyBottleSize h;
     "Water:"; if hasWater then "Present  " else "Absent  ";
     "Status:"; status] /\
  serial_texts es =
    [newline +:+ "Height: "; "cm"; " | Size: "; classifyBottleSize h;
     " | Water: "; if hasWater then "Yes" else "No";
     " | Status: "; status] /\
  green = Some (negb hasWater) /\ red = Some hasWater.
Proof.
  cbv zeta.
  rewrite water_seen_after_measuring, result_measureBottleHeight.
  rewrite emitted_inspectBottle.
  rewrite exec_inspectBottle, pins_push, !lookup_driven.
  destruct (levels_on_inspecting w) as [-> ->].
  unfold inspecting. cbv zeta.
  generalize (height_seen w). intros h.
  generalize (classifyBottleSize h). intros size.
  generalize (echo_feed w (echo_n w)). intros echo.
  assert (forall vs, numbers_shown (sampling vs) = []) as Hn
    by (induction vs; [done|assumption]).
  assert (forall vs, lcd_texts (sampling vs) = []) as Hl
    by (induction vs; [done|assumption]).
  assert (forall vs, serial_texts (sampling vs) = []) as Hs
    by (induction vs; [done|assumption]).
  unfold numbers_shown, lcd_texts, serial_texts in *.
  rewrite !omap_app, Hn, Hl, Hs.
  by destruct (water_seen w).
Qed.

(** ** Gate, buzzer and start-up *)

Lemma ramp_snoc (start step : Z) (n : nat) :
  ramp start step (S n) = ramp start step n ++ [start + step * Z.of_nat n].
Proof.
  revert start. induction n as [|n IH]; intros start.
  - simpl. f_equal. lia.
  - change (ramp start step (S (S n)))
      with (start :: ramp (start + step) step (S n)).
    rewrite IH. simpl. do 3 f_equal. lia.
Qed.

Lemma ramp_reverse (start step : Z) (n : nat) :
  reverse (ramp start step n) =
  ramp (start + step * (Z.of_nat n - 1)) (- step) n.
Proof.
  revert start. induction n as [|n IH]; intros start; [done|].
  rewrite ramp_snoc, reverse_app, IH. simpl.
  f_equal; [lia|]. f_equal. lia.
Qed.

(** X7. [closeGate] retraces [openGate] backwards: it commands the same
    angles in the reverse order, so that opening and then closing the gate
    visits every angle twice and comes back to the angle it started
    from. *)
Theorem closeGate_retraces_openGate (w w' : World) :
  servo_angles (emitted closeGate w') =
    reverse (servo_angles (emitted openGate w)) /\
  servo_angles (emitted (openGate;; closeGate) w) =
    servo_angles (emitted openGate w) ++
    reverse (servo_angles (emitted openGate w)) /\
  head (servo_angles (emitted (openGate;; closeGate) w)) =
    last (servo_angles (emitted (openGate;; closeGate) w)).
Proof.
  rewrite (emitted_writes _ _ w writes_openGate).
  rewrite (emitted_writes _ _ w' writes_closeGate).
  rewrite (emitted_writes _ _ w (writes_bind _ _ _ _ writes_openGate
                                   writes_closeGate)).
  rewrite servo_angles_app, !servo_angles_sweep, ramp_reverse.
  split_and!; [done..|].
  rewrite last_app. by rewrite (ramp_last 180 (-2) 90).
Qed.

Lemma lookup_driven_other (pin : Z) (es : list Event) (p : gmap Z bool) :
  levels_on pin es = [] -> foldl (flip drive) p es !! pin = p !! pin.
Proof. intros H. by rewrite lookup_driven, H. Qed.

(** X8. For a duration [d] that is a non-negative [int], [beep d] sounds
    the buzzer for exactly [d] ms and leaves it silent, whatever level the
    buzzer pin had before; no other pin changes, and no sensor reading is
    consumed. *)
Theorem beep_sounds_then_silent (d : Z) (w : World) (pin : Z) :
  0 <= d < 2 ^ 15 ->
  pin <> BUZZER_PIN ->
  emitted (beep d) w =
    [EDigitalWrite BUZZER_PIN HIGH; EDelay d; EDigitalWrite BUZZER_PIN LOW] /\
  blocked_ms (emitted (beep d) w) = d /\
  pins (exec (beep d) w) !! BUZZER_PIN = Some LOW /\
  pins (exec (beep d) w) !! pin = pins w !! pin /\
  ir_n (exec (beep d) w) = ir_n w /\
  echo_n (exec (beep d) w) = echo_n w /\
  adc_n (exec (beep d) w) = adc_n w.
Proof.
  intros Hd Hpin.
  pose proof (writes_beep d) as Hbeep.
  rewrite uint32_small in Hbeep by lia.
  rewrite (emitted_writes _ _ w Hbeep).
  rewrite (writes_exec _ _ w Hbeep).
  split_and!; try done.
  - unfold blocked_ms, sum_Z. simpl. lia.
  - by rewrite pins_push, lookup_driven.
  - rewrite pins_push. apply lookup_driven_other.
    unfold levels_on, tone. simpl. by rewrite !decide_False by congruence.
Qed.

Lemma beep_sounds_then_silent_witness :
  0 <= 200 < 2 ^ 15 /\
  GREEN_LED <> BUZZER_PIN /\
  pins (exec (beep 200) (exec inspectBottle dry_bench)) !! GREEN_LED =
    pins (exec inspectBottle dry_bench) !! GREEN_LED.
Proof.
  assert (0 <= 200 < 2 ^ 15) as Hd by lia.
  assert (GREEN_LED <> BUZZER_PIN) as H by done.
  refine (conj Hd (conj H _)).
  destruct (beep_sounds_then_silent 200 (exec inspectBottle dry_bench)
              GREEN_LED Hd H) as (_ & _ & _ & Hpin & _).
  exact Hpin.
Defined.

(** A negative duration is not a short beep: converted to the
    [unsigned long] that [delay] takes, -1 is a wait of 4294967295 ms. *)
Example beep_negative_duration (w : World) :
  emitted (beep (-1)) w =
    [EDigitalWrite BUZZER_PIN HIGH; EDelay 4294967295;
     EDigitalWrite BUZZER_PIN LOW].
Proof. by rewrite (emitted_writes _ _ w (writes_beep (-1))). Qed.

(** The three tones differ in what can be heard: the start-up tone is
    two beeps of 100 ms, the accept tone two beeps of 200 ms, the reject
    tone one beep of 1000 ms; they keep the controller for 250, 500 and
    1000 ms, and each ends with the buzzer silent. *)
Lemma tones_are_distinct (w : World) :
  let heard (m : HW ()) :=
    (levels_on BUZZER_PIN (emitted m w), delays (emitted m w)) in
  heard startupBeep = ([HIGH; LOW; HIGH; LOW], [100; 50; 100]) /\
  heard acceptBeep = ([HIGH; LOW; HIGH; LOW], [200; 100; 200]) /\
  heard rejectBeep = ([HIGH; LOW], [1000]) /\
  blocked_ms (emitted startupBeep w) = 250 /\
  blocked_ms (emitted acceptBeep w) = 500 /\
  blocked_ms (emitted rejectBeep w) = 1000 /\
  pins (exec startupBeep w) !! BUZZER_PIN = Some LOW /\
  pins (exec acceptBeep w) !! BUZZER_PIN = Some LOW /\
  pins (exec rejectBeep w) !! BUZZER_PIN = Some LOW.
Proof.
  assert (writes startupBeep (tone 100 ++ [EDelay 50] ++ tone 100)) as Hs.
  { unfold startupBeep, delay. writes_by_structure. }
  assert (writes acceptBeep (tone 200 ++ [EDelay 100] ++ tone 200)) as Ha.
  { unfold acceptBeep, delay. writes_by_structure. }
  assert (writes rejectBeep (tone 1000)) as Hr.
  { unfold rejectBeep. apply writes_beep. }
  cbv zeta.
  rewrite !(emitted_writes _ _ w Hs), !(emitted_writes _ _ w Ha),
    !(emitted_writes _ _ w Hr).
  rewrite (writes_exec _ _ w Hs), (writes_exec _ _ w Ha),
    (writes_exec _ _ w Hr).
  rewrite !pins_push, !lookup_driven.
  by split_and!.
Qed.

(** X9. [setup] reads no sensor and leaves the detector's static
    variables alone; it keeps the controller in [delay] for 1750 ms; it
    commands the servo once, to the closed angle, and leaves the buzzer
    silent, the trigger LOW and the display cleared. *)
Theorem setup_brings_up_the_station (w : World) :
  let es := emitted setup w in
  ir_n (exec setup w) = ir_n w /\
  echo_n (exec setup w) = echo_n w /\
  adc_n (exec setup w) = adc_n w /\
  debounce (exec setup w) = debounce w /\
  blocked_ms es = 1750 /\
  servo_angles es = [SERVO_CLOSED_ANGLE] /\
  pins (exec setup w) !! BUZZER_PIN = Some LOW /\
  pins (exec setup w) !! TRIG_PIN = Some LOW /\
  last es = Some ELcdClear.
Proof.
  cbv zeta.
  rewrite (emitted_writes _ _ w writes_setup).
  rewrite (writes_exec _ _ w writes_setup).
  rewrite !pins_push, !lookup_driven.
  by split_and!.
Qed.

(** ** Whole runs *)

Lemma run_from_events (w0 w : World) :
  run_from w0 w ->
  exists es, loop_events es /\ since w0 w = booting ++ es /\
             pins w = foldl (flip drive) (pins w0) (booting ++ es).
Proof.
  unfold since.
  assert (forall w es, drop (length (trace w0)) (trace w) = booting ++ es ->
            (length (trace w0) <= length (trace w))%nat ->
            forall es', drop (length (trace w0)) (trace w ++ es')
                        = booting ++ es ++ es') as Hdrop.
  { intros w1 es H Hlen es'. rewrite drop_app_le by done.
    by rewrite H, app_assoc. }
  intros Hrun.
  enough (exists es, loop_events es /\
            drop (length (trace w0)) (trace w) = booting ++ es /\
            pins w = foldl (flip drive) (pins w0) (booting ++ es) /\
            (length (trace w0) <= length (trace w))%nat) as (es & ? & ? & ? & _)
    by eauto.
  induction Hrun as [|w _ (es & Hes & Ht & Hp & Hl)|w _ (es & Hes & Ht & Hp & Hl)
                     |ms w _ (es & Hes & Ht & Hp & Hl)
                     |w _ (es & Hes & Ht & Hp & Hl)].
  - exists []. rewrite (writes_exec _ _ w0 writes_setup), trace_push, pins_push.
    rewrite drop_app_length, app_nil_r, length_app.
    split_and!; [apply le_nil|done|done|lia].
  - destruct (exec_bottleDetected w) as [Hp' Ht'].
    eexists. split; [by apply (le_poll es)|].
    rewrite Ht', Hp', Hp, (Hdrop w es Ht Hl), length_app.
    split_and!; [done| |lia].
    by rewrite (app_assoc booting), (foldl_app _ (booting ++ es)).
  - exists (es ++ inspecting w). split; [by apply le_inspect|].
    rewrite exec_inspectBottle, trace_push, pins_push.
    change (trace (advance 1 5 w)) with (trace w).
    change (pins (advance 1 5 w)) with (pins w).
    rewrite (Hdrop w es Ht Hl), Hp, length_app.
    split_and!; [done| |lia].
    by rewrite (app_assoc booting), (foldl_app _ (booting ++ es)).
  - exists (es ++ [EDelay ms]). split; [by apply le_delay|].
    unfold delay.
    rewrite (writes_exec _ _ w (writes_emit _)), trace_push, pins_push.
    rewrite (Hdrop w es Ht Hl), Hp, length_app.
    split_and!; [done| |lia].
    by rewrite (app_assoc booting), (foldl_app _ (booting ++ es)).
  - exists (es ++ [ELcdClear]). split; [by apply le_clear|].
    unfold lcd_clear.
    rewrite (writes_exec _ _ w (writes_emit _)), trace_push, pins_push.
    rewrite (Hdrop w es Ht Hl), Hp, length_app.
    split_and!; [done| |lia].
    by rewrite (app_assoc booting), (foldl_app _ (booting ++ es)).
Qed.

Lemma reachable_run_from (w : World) :
  reachable w <-> exists w0, run_from w0 w.
Proof.
  split.
  - induction 1 as [w0|w _ [w0 IH]|w _ [w0 IH]|ms w _ [w0 IH]|w _ [w0 IH]];
      exists w0.
    + apply run_setup.
    + by apply run_poll.
    + by apply run_inspect.
    + by apply run_delay.
    + by apply run_clear.
  - intros [w0 H]. induction H as [|w _ IH|w _ IH|ms w _ IH|w _ IH].
    + apply reach_setup.
    + by apply reach_poll.
    + by apply reach_inspect.
    + by apply reach_delay.
    + by apply reach_clear.
Qed.

Lemma drives_configured_app (cfg : list Z) (es1 es2 : list Event) :
  drives_configured cfg (es1 ++ es2) =
  drives_configured cfg es1 && drives_configured (configured cfg es1) es2.
Proof.
  revert cfg. induction es1 as [|e es1 IH]; intros cfg; [done|].
  destruct e; simpl; try apply IH. by rewrite IH, andb_assoc.
Qed.

Lemma configured_app (cfg : list Z) (es1 es2 : list Event) :
  configured cfg (es1 ++ es2) = configured (configured cfg es1) es2.
Proof.
  revert cfg. induction es1 as [|e es1 IH]; intros cfg; [done|].
  destruct e; simpl; apply IH.
Qed.

Lemma started_before_use_app (st : Started) (es1 es2 : list Event) :
  started_before_use st (es1 ++ es2) =
  started_before_use st es1 && started_before_use (started st es1) es2.
Proof.
  revert st. induction es1 as [|e es1 IH]; intros st; [done|].
  destruct e; simpl; try apply IH; by rewrite IH, andb_assoc.
Qed.

Lemma started_app (st : Started) (es1 es2 : list Event) :
  started st (es1 ++ es2) = started (started st es1) es2.
Proof.
  revert st. induction es1 as [|e es1 IH]; intros st; [done|].
  destruct e; simpl; apply IH.
Qed.

(** What [inspectBottle] emits, seen by the two checks. *)
Lemma inspecting_checks (w : World) (cfg : list Z) (st : Started) :
  cfg = configured [] booting -> st = started nothing_started booting ->
  drives_configured cfg (inspecting w) = true /\
  configured cfg (inspecting w) = cfg /\
  started_before_use st (inspecting w) = true /\
  started st (inspecting w) = st.
Proof.
  intros -> ->. unfold inspecting. cbv zeta.
  generalize (height_seen w). intros h.
  generalize (classifyBottleSize h). intros size.
  generalize (echo_feed w (echo_n w)). intros echo.
  assert (forall vs cfg, drives_configured cfg (sampling vs) = true /\
                         configured cfg (sampling vs) = cfg) as Hc.
  { induction vs as [|v vs IH]; intros cfg; [done|]. apply IH. }
  assert (forall vs st, started_before_use st (sampling vs) = true /\
                        started st (sampling vs) = st) as Hs.
  { induction vs as [|v vs IH]; intros st; [done|]. apply IH. }
  rewrite !drives_configured_app, !configured_app,
    !started_before_use_app, !started_app.
  change (configured (configured [] booting) (measuring echo))
    with (configured [] booting).
  change (started (started nothing_started booting) (measuring echo))
    with (started nothing_started booting).
  rewrite !(proj2 (Hc _ _)), !(proj1 (Hc _ _)),
    !(proj2 (Hs _ _)), !(proj1 (Hs _ _)).
  by destruct (water_seen w).
Qed.

Lemma loop_events_checks (es : list Event) (cfg : list Z) (st : Started) :
  loop_events es ->
  cfg = configured [] booting -> st = started nothing_started booting ->
  drives_configured cfg es = true /\ configured cfg es = cfg /\
  started_before_use st es = true /\ started st es = st.
Proof.
  intros Hes Hcfg Hst.
  induction Hes as [|es level _ (H1 & H2 & H3 & H4)
                    |es w _ (H1 & H2 & H3 & H4)
                    |es ms _ (H1 & H2 & H3 & H4)
                    |es _ (H1 & H2 & H3 & H4)];
    [done|..];
    rewrite drives_configured_app, configured_app, started_before_use_app,
      started_app, H1, H2, H3, H4;
    [by subst| |by subst..].
  by apply inspecting_checks.
Qed.

(** The checks reject a trace that drives a pin never made an output, or
    one made an input again, and a trace that commands the servo before
    it is attached or prints on the LCD before [lcd.init]. *)
Example checks_reject :
  drives_configured [] [EDigitalWrite RED_LED HIGH] = false /\
  drives_configured []
    [EPinMode RED_LED OUTPUT; EPinMode RED_LED INPUT;
     EDigitalWrite RED_LED HIGH] = false /\
  started_before_use nothing_started [EServoWrite 0] = false /\
  started_before_use nothing_started
    [EWireBegin; ELcdPrint "LCD Test"] = false.
Proof. done. Qed.

(** X10. From power-on, through [setup] and any sequence of the calls
    [loop] makes, every [digitalWrite] goes to a pin that [setup] made an
    output beforehand: the sketch never drives the IR, echo or ADC pin,
    nor any pin before it is configured. *)
Theorem pins_configured_before_driven (w0 w : World) :
  run_from w0 w ->
  drives_configured [] (since w0 w) = true /\
  configured [] (since w0 w) = [RED_LED; GREEN_LED; BUZZER_PIN; TRIG_PIN].
Proof.
  intros Hrun. destruct (run_from_events w0 w Hrun) as (es & Hes & -> & _).
  destruct (loop_events_checks es _ _ Hes eq_refl eq_refl)
    as (H1 & H2 & _ & _).
  by rewrite drives_configured_app, configured_app, H1, H2.
Qed.

Lemma pins_configured_before_driven_witness :
  run_from wet_line (exec inspectBottle (exec setup wet_line)) /\
  drives_configured []
    (since wet_line (exec inspectBottle (exec setup wet_line))) = true.
Proof.
  assert (run_from wet_line (exec inspectBottle (exec setup wet_line))) as H
    by apply run_inspect, run_setup.
  split; [exact H|].
  exact (proj1 (pins_configured_before_driven wet_line _ H)).
Defined.

(** X11. From power-on, through [setup] and any sequence of the calls
    [loop] makes, no peripheral is used before it is started: every
    serial print comes after [Serial.begin], [lcd.init] after
    [Wire.begin], every other LCD command after [lcd.init], and every
    servo command after [attach]. *)
Theorem peripherals_started_before_use (w0 w : World) :
  run_from w0 w ->
  started_before_use nothing_started (since w0 w) = true.
Proof.
  intros Hrun. destruct (run_from_events w0 w Hrun) as (es & Hes & -> & _).
  destruct (loop_events_checks es _ _ Hes eq_refl eq_refl)
    as (_ & _ & H3 & _).
  by rewrite started_before_use_app, H3.
Qed.

Lemma peripherals_started_before_use_witness :
  run_from wet_line (exec inspectBottle (exec setup wet_line)) /\
  started_before_use nothing_started
    (since wet_line (exec inspectBottle (exec setup wet_line))) = true.
Proof.
  assert (run_from wet_line (exec inspectBottle (exec setup wet_line))) as H
    by apply run_inspect, run_setup.
  split; [exact H|].
  exact (peripherals_started_before_use wet_line _ H).
Defined.

Lemma smooth_app (l1 l2 : list Z) :
  smooth l1 -> smooth l2 ->
  (forall a b, last l1 = Some a -> head l2 = Some b -> -2 <= b - a <= 2) ->
  smooth (l1 ++ l2).
Proof.
  unfold smooth. intros H1 H2 Hj.
  induction l1 as [|a l1 IH]; [done|].
  destruct l1 as [|a' l1].
  - destruct l2 as [|b l2]; [constructor|].
    change (Forall (fun p => -2 <= p.2 - p.1 <= 2)
              ((a, b) :: zip (b :: l2) (tail (b :: l2)))).
    constructor; [|done]. by apply Hj.
  - change (Forall (fun p => -2 <= p.2 - p.1 <= 2)
              ((a, a') :: zip (a' :: l1) (tail (a' :: l1)))) in H1.
    apply Forall_cons in H1 as [Ha H1].
    change (Forall (fun p => -2 <= p.2 - p.1 <= 2)
              ((a, a') :: zip ((a' :: l1) ++ l2) (tail ((a' :: l1) ++ l2)))).
    constructor; [done|]. apply IH; [done|].
    intros x y Hx Hy. apply Hj; [|done]. by rewrite last_cons_cons.
Qed.

Lemma smooth_ramp (start step : Z) (n : nat) :
  -2 <= step <= 2 -> smooth (ramp start step n).
Proof.
  intros Hstep. unfold smooth.
  eapply Forall_impl; [apply ramp_steps|]. intros [a b] H. simpl in *. lia.
Qed.

(** The angles an inspection commands, appended to angles that end
    closed, keep them smooth, within range and closed at the end. *)
Lemma gate_track_inspect (angles : list Z) (w : World) :
  smooth angles -> Forall (fun a => 0 <= a <= 180) angles ->
  last angles = Some 0 ->
  smooth (angles ++ servo_angles (inspecting w)) /\
  Forall (fun a => 0 <= a <= 180) (angles ++ servo_angles (inspecting w)) /\
  last (angles ++ servo_angles (inspecting w)) = Some 0.
Proof.
  intros Hs Hr Hl. rewrite servo_angles_inspecting.
  destruct (water_seen w); [by rewrite app_nil_r|].
  split_and!.
  - apply smooth_app; [done| |].
    + apply smooth_app; [by apply smooth_ramp..|].
      rewrite (ramp_last 0 2 90). intros a b [= <-] [= <-]. lia.
    + rewrite Hl. intros a b [= <-] [= <-]. lia.
  - rewrite !Forall_app. split_and!; [done|apply ramp_bounds; lia..].
  - rewrite app_assoc, last_app. by rewrite (ramp_last 180 (-2) 90).
Qed.

Lemma gate_track (es : list Event) :
  loop_events es ->
  smooth ([0] ++ servo_angles es) /\
  Forall (fun a => 0 <= a <= 180) ([0] ++ servo_angles es) /\
  last ([0] ++ servo_angles es) = Some 0.
Proof.
  induction 1 as [|es level _ IH|es w' _ IH|es ms _ IH|es _ IH];
    rewrite ?servo_angles_app, ?app_nil_r; try exact IH.
  - split_and!; [constructor|by repeat constructor|done].
  - rewrite app_assoc. destruct IH as (H1 & H2 & H3).
    by apply gate_track_inspect.
Qed.

(** A sweep is smooth; a jump from closed to half open is not. *)
Example smooth_rejects : smooth [0; 2; 4; 2] /\ ~ smooth [0; 90].
Proof.
  split.
  - unfold smooth. simpl. repeat constructor; simpl; lia.
  - unfold smooth. simpl. intros H. inversion H as [|? ? Hjump _]; subst.
    simpl in Hjump. lia.
Qed.

(** X12. From power-on, through [setup] and any sequence of the calls
    [loop] makes, the gate never jumps: two consecutive servo commands are
    at most 2 degrees apart, every commanded angle lies in [0, 180], and
    the first and the latest command are both the closed angle 0. *)
Theorem gate_never_jumps (w0 w : World) :
  run_from w0 w ->
  let angles := servo_angles (since w0 w) in
  smooth angles /\
  Forall (fun a => SERVO_CLOSED_ANGLE <= a <= SERVO_OPEN_ANGLE) angles /\
  head angles = Some SERVO_CLOSED_ANGLE /\
  last angles = Some SERVO_CLOSED_ANGLE.
Proof.
  intros Hrun. destruct (run_from_events w0 w Hrun) as (es & Hes & -> & _).
  cbv zeta. unfold SERVO_CLOSED_ANGLE, SERVO_OPEN_ANGLE.
  rewrite servo_angles_app.
  change (servo_angles booting) with [0].
  destruct (gate_track es Hes) as (H1 & H2 & H3).
  by split_and!.
Qed.

Lemma gate_never_jumps_witness :
  run_from dry_bench (exec inspectBottle (exec setup dry_bench)) /\
  smooth (servo_angles
            (since dry_bench (exec inspectBottle (exec setup dry_bench)))).
Proof.
  assert (run_from dry_bench (exec inspectBottle (exec setup dry_bench)))
    as H by apply run_inspect, run_setup.
  split; [exact H|].
  exact (proj1 (gate_never_jumps dry_bench _ H)).
Defined.

(** X13. Between the calls the sketch makes, the buzzer is silent and the
    ultrasonic trigger is LOW, and the two LEDs are never lit together:
    both are off, or exactly one of them is on. *)
Theorem outputs_at_rest (w : World) :
  reachable w ->
  pins w !! BUZZER_PIN = Some LOW /\
  pins w !! TRIG_PIN = Some LOW /\
  exists green red : bool,
    pins w !! GREEN_LED = Some green /\ pins w !! RED_LED = Some red /\
    green && red = false.
Proof.
  induction 1 as [w0|w _ IH|w _ IH|ms w _ IH|w _ IH].
  - rewrite (writes_exec _ _ w0 writes_setup), pins_push, !lookup_driven.
    split_and!; [done..|]. by exists LOW, LOW.
  - by rewrite (proj1 (exec_bottleDetected w)).
  - rewrite exec_inspectBottle, pins_push, !lookup_driven.
    destruct (levels_on_inspecting w) as [-> ->].
    assert (last (levels_on BUZZER_PIN (inspecting w)) = Some LOW /\
            last (levels_on TRIG_PIN (inspecting w)) = Some LOW) as [-> ->].
    { unfold inspecting. cbv zeta.
      generalize (height_seen w). intros h.
      generalize (classifyBottleSize h). intros size.
      generalize (echo_feed w (echo_n w)). intros echo.
      rewrite !levels_on_app, !levels_on_sampling.
      by destruct (water_seen w). }
    split_and!; [done..|].
    exists (negb (water_seen w)), (water_seen w).
    split_and!; [done..|]. by destruct (water_seen w).
  - exact IH.
  - exact IH.
Qed.

Lemma outputs_at_rest_witness :
  reachable (exec inspectBottle (exec setup wet_line)) /\
  pins (exec inspectBottle (exec setup wet_line)) !! BUZZER_PIN = Some LOW.
Proof.
  assert (reachable (exec inspectBottle (exec setup wet_line))) as H
    by apply reach_inspect, reach_setup.
  split; [exact H|].
  exact (proj1 (outputs_at_rest _ H)).
Defined.

(** ** Waiting for the bottle to pass, and one pass through [loop] *)

Lemma only_polled_refl (w : World) : only_polled w w.
Proof.
  unfold only_polled. split_and!; try done.
  exists []. by rewrite app_nil_r.
Qed.

Lemma only_polled_trans (w1 w2 w3 : World) :
  only_polled w1 w2 -> only_polled w2 w3 -> only_polled w1 w3.
Proof.
  intros (A1 & A2 & A3 & A4 & A5 & A6 & A7 & es1 & A8 & A9)
         (B1 & B2 & B3 & B4 & B5 & B6 & B7 & es2 & B8 & B9).
  unfold only_polled. split_and!; try congruence; [lia|].
  exists (es1 ++ es2). rewrite B8, A8, app_assoc. split; [done|].
  by apply Forall_app.
Qed.

Lemma only_polled_bottleDetected (w : World) :
  only_polled w (exec bottleDetected w).
Proof.
  unfold only_polled, exec, bottleDetected.
  destruct (bottleDetected_step _ _) as [r s]. simpl.
  split_and!; try done; [lia|].
  eexists. split; [done|]. by repeat constructor.
Qed.

Lemma only_polled_delay (ms : Z) (w : World) :
  only_polled w (exec (delay ms) w).
Proof.
  unfold only_polled, exec, delay, emit. simpl.
  split_and!; try done.
  eexists. split; [done|]. by repeat constructor.
Qed.

Lemma only_polled_waitForPass (fuel : nat) (w w' : World) :
  waitForPass fuel w = Some w' -> only_polled w w'.
Proof.
  revert w. induction fuel as [|fuel IH]; intros w; [done|].
  simpl. pose proof (only_polled_bottleDetected w) as Hp. unfold exec in Hp.
  destruct (bottleDetected w) as [[] w1]; simpl in Hp.
  - intros H. apply IH in H.
    eapply only_polled_trans; [exact Hp|].
    eapply only_polled_trans; [apply only_polled_delay|exact H].
  - by intros [= <-].
Qed.

(** The wait for the bottle to pass is over at the first HIGH reading at
    the latest: if the reading [i] polls ahead is HIGH, the wait ends
    after at most [i + 1] polls, having done nothing but poll and pause. *)
Lemma waitForPass_ends (i fuel : nat) (w : World) :
  (i < fuel)%nat ->
  raw (ir_feed w (i + ir_n w)%nat) = HIGH ->
  exists w', waitForPass fuel w = Some w' /\
             only_polled w w' /\
             (ir_n w' <= S i + ir_n w)%nat.
Proof.
  revert fuel w. induction i as [|i IH]; intros fuel w Hfuel Hraw;
    (destruct fuel as [|fuel]; [lia|]); simpl waitForPass;
    pose proof (only_polled_bottleDetected w) as Hp;
    destruct (bottleDetected_is_step w) as (Hr & _ & Hn);
    unfold exec, result in Hp, Hr, Hn;
    destruct (bottleDetected w) as [r w1]; simpl in Hp, Hr, Hn.
  - rewrite (proj1 (step_high _ _ Hraw)) in Hr. subst r.
    exists w1. split_and!; [done..|lia].
  - destruct r.
    + destruct (IH fuel (exec (delay 10) w1)) as (w' & Hw & Hpoll & Hle);
        [lia| |].
      { destruct Hp as (Hf & _).
        change (ir_feed (exec (delay 10) w1)) with (ir_feed w1).
        change (ir_n (exec (delay 10) w1)) with (ir_n w1).
        rewrite Hf, Hn. by rewrite Nat.add_succ_r. }
      exists w'. split_and!; [done| |].
      * eapply only_polled_trans; [exact Hp|].
        eapply only_polled_trans; [apply only_polled_delay|exact Hpoll].
      * change (ir_n (exec (delay 10) w1)) with (ir_n w1) in Hle. lia.
    + exists w1. split_and!; [done..|lia].
Qed.

(** With no bottle in front of the sensor, a pass through [loop] is a
    poll and a 10 ms pause. *)
Lemma loop_idle (fuel : nat) (w : World) :
  raw (ir_feed w (ir_n w)) = HIGH ->
  loop fuel w = Some (exec (delay 10) (exec bottleDetected w)).
Proof.
  intros Hraw. unfold loop.
  destruct (bottleDetected_is_step w) as (Hr & _ & _).
  rewrite (proj1 (step_high _ _ Hraw)) in Hr.
  unfold result, exec in *. by destruct (bottleDetected w) as [[] w1].
Qed.

(** X14. A pass through [loop] that detects a bottle completes as soon as
    the sensor reads HIGH once: the release is not debounced.  If the
    first poll answers true and the reading [i + 1] polls ahead is HIGH,
    the pass returns after at most [i + 2] polls, having consumed exactly
    one echo duration and five ADC readings. *)
Theorem busy_pass_completes (i fuel : nat) (w : World) :
  result bottleDetected w = true ->
  (i < fuel)%nat ->
  raw (ir_feed w (S i + ir_n w)%nat) = HIGH ->
  exists w', loop fuel w = Some w' /\
             (ir_n w' <= 2 + i + ir_n w)%nat /\
             echo_n w' = (1 + echo_n w)%nat /\
             adc_n w' = (5 + adc_n w)%nat.
Proof.
  intros Hdet Hfuel Hraw.
  assert (bottleDetected w = (true, exec bottleDetected w)) as Hpair.
  { rewrite <- Hdet. unfold result, exec. by destruct (bottleDetected w). }
  pose proof (only_polled_bottleDetected w)
    as (Hf & _ & _ & _ & He & Ha & _).
  destruct (bottleDetected_is_step w) as (_ & _ & Hn).
  unfold loop. rewrite Hpair.
  set (w1 := exec bottleDetected w) in *. clearbody w1.
  destruct (inspectBottle_frame w1) as (He1 & Ha1 & Hn1 & _ & Hf1 & _).
  destruct (waitForPass_ends i fuel (exec inspectBottle w1) Hfuel)
    as (w2 & Hw & Hpoll & Hle).
  { rewrite Hf1, Hn1, Hf, Hn. by rewrite Nat.add_succ_r. }
  destruct Hpoll as (_ & _ & _ & _ & He2 & Ha2 & _).
  rewrite Hw. eexists. split; [reflexivity|].
  change (ir_n (exec ?m w2)) with (ir_n w2).
  change (echo_n (exec ?m w2)) with (echo_n w2).
  change (adc_n (exec ?m w2)) with (adc_n w2).
  rewrite He2, Ha2, He1, Ha1, He, Ha. split_and!; [lia|done..].
Qed.

Lemma busy_pass_completes_witness :
  result bottleDetected leaving_bench = true /\
  (1 < 5)%nat /\
  raw (ir_feed leaving_bench (2 + ir_n leaving_bench)%nat) = HIGH /\
  exists w', loop 5 leaving_bench = Some w' /\
             echo_n w' = (1 + echo_n leaving_bench)%nat.
Proof.
  assert (1 < 5)%nat as Hlt by lia.
  refine (conj eq_refl (conj Hlt (conj eq_refl _))).
  destruct (busy_pass_completes 1 5 leaving_bench eq_refl Hlt eq_refl)
    as (w' & Hw & _ & He & _).
  exists w'. by split.
Defined.

(** What a pass through [loop] that returns has done, by the answer of
    its first poll. *)
Lemma loop_pass_events (fuel : nat) (w w' : World) :
  loop fuel w = Some w' ->
  let w1 := exec bottleDetected w in
  let first := EDigitalRead IR_SENSOR_PIN (raw (ir_feed w (ir_n w))) in
  if result bottleDetected w
  then exists es,
         since w w' =
           first :: inspecting w1 ++ es ++ [EDelay 2000; ELcdClear; EDelay 10]
         /\ Forall poll_or_pause es
         /\ echo_n w' = (1 + echo_n w)%nat /\ adc_n w' = (5 + adc_n w)%nat
  else w' = exec (delay 10) w1 /\
       since w w' = [first; EDelay 10] /\
       echo_n w' = echo_n w /\ adc_n w' = adc_n w.
Proof.
  assert (writes (delay 2000;; lcd_clear;; delay 10)
            [EDelay 2000; ELcdClear; EDelay 10]) as Hend.
  { unfold delay, lcd_clear. writes_by_structure. }
  assert (bottleDetected w = (result bottleDetected w, exec bottleDetected w))
    as Hpair by (unfold result, exec; by destruct (bottleDetected w)).
  pose proof (only_polled_bottleDetected w)
    as (_ & _ & _ & _ & He & Ha & _).
  destruct (exec_bottleDetected w) as [_ Ht].
  unfold loop, since. rewrite Hpair. cbv zeta.
  set (w1 := exec bottleDetected w) in *. clearbody w1.
  destruct (result bottleDetected w).
  - destruct (waitForPass fuel (exec inspectBottle w1)) as [w2|] eqn:E;
      [|done].
    apply only_polled_waitForPass in E
      as (_ & _ & _ & _ & He2 & Ha2 & _ & es & Ht2 & Hes).
    change (Some w2 ≫= ?f) with (f w2). intros [= <-]. exists es.
    rewrite (writes_exec _ _ w2 Hend), trace_push.
    change (echo_n (push ?l w2)) with (echo_n w2).
    change (adc_n (push ?l w2)) with (adc_n w2).
    rewrite Ht2, He2, Ha2, exec_inspectBottle, trace_push.
    change (trace (advance 1 5 w1)) with (trace w1).
    change (echo_n (push ?l (advance 1 5 w1))) with (1 + echo_n w1)%nat.
    change (adc_n (push ?l (advance 1 5 w1))) with (5 + adc_n w1)%nat.
    rewrite Ht, He, Ha. split_and!; [|done..].
    rewrite <- !app_assoc. by rewrite drop_app_length.
  - intros [= <-]. split; [done|]. unfold delay.
    rewrite (writes_exec _ _ w1 (writes_emit _)), trace_push.
    change (echo_n (push ?l w1)) with (echo_n w1).
    change (adc_n (push ?l w1)) with (adc_n w1).
    rewrite Ht, <- app_assoc, drop_app_length. by rewrite He, Ha.
Qed.

(** A pass through [loop] returns once the sensor reads HIGH at a poll
    after the first. *)
Lemma loop_returns (i fuel : nat) (w : World) :
  (i < fuel)%nat ->
  raw (ir_feed w (S i + ir_n w)%nat) = HIGH ->
  exists w', loop fuel w = Some w'.
Proof.
  intros Hfuel Hraw.
  assert (bottleDetected w = (result bottleDetected w, exec bottleDetected w))
    as Hpair by (unfold result, exec; by destruct (bottleDetected w)).
  pose proof (only_polled_bottleDetected w) as (Hf & _).
  destruct (bottleDetected_is_step w) as (_ & _ & Hn).
  unfold loop. rewrite Hpair.
  set (w1 := exec bottleDetected w) in *. clearbody w1.
  destruct (result bottleDetected w); [|by eexists].
  destruct (inspectBottle_frame w1) as (_ & _ & Hn1 & _ & Hf1 & _).
  destruct (waitForPass_ends i fuel (exec inspectBottle w1) Hfuel)
    as (w2 & Hw & _).
  { rewrite Hf1, Hn1, Hf, Hn. by rewrite Nat.add_succ_r. }
  rewrite Hw. by eexists.
Qed.

(** X15. One pass through [loop] makes at most one inspection.  Provided
    the sensor reads HIGH at some poll after the first, so that the wait
    for the bottle to pass ends, the pass returns.  When the first poll
    answers false it has done nothing but that poll and a 10 ms pause.
    When it answers true it has emitted, in this order, the poll, one
    inspection, polls and pauses only while waiting for the bottle to
    pass, then the 2000 ms hold, the clearing of the display and the
    10 ms pause; it has consumed exactly one echo duration and five ADC
    readings. *)
Theorem loop_makes_one_inspection (i fuel : nat) (w : World) :
  (i < fuel)%nat ->
  raw (ir_feed w (S i + ir_n w)%nat) = HIGH ->
  exists w',
    loop fuel w = Some w' /\
    let w1 := exec bottleDetected w in
    let first := EDigitalRead IR_SENSOR_PIN (raw (ir_feed w (ir_n w))) in
    if result bottleDetected w
    then exists es,
           since w w' =
             first :: inspecting w1 ++ es ++
             [EDelay 2000; ELcdClear; EDelay 10]
           /\ Forall poll_or_pause es
           /\ echo_n w' = (1 + echo_n w)%nat /\ adc_n w' = (5 + adc_n w)%nat
    else w' = exec (delay 10) w1 /\
         since w w' = [first; EDelay 10] /\
         echo_n w' = echo_n w /\ adc_n w' = adc_n w.
Proof.
  intros Hfuel Hraw.
  destruct (loop_returns i fuel w Hfuel Hraw) as [w' Hw].
  exists w'. split; [exact Hw|]. exact (loop_pass_events fuel w w' Hw).
Qed.

Lemma loop_makes_one_inspection_witness :
  (1 < 5)%nat /\
  raw (ir_feed leaving_bench (2 + ir_n leaving_bench)%nat) = HIGH /\
  result bottleDetected leaving_bench = true /\
  exists w' es,
    loop 5 leaving_bench = Some w' /\
    since leaving_bench w' =
      EDigitalRead IR_SENSOR_PIN LOW ::
      inspecting (exec bottleDetected leaving_bench) ++ es ++
      [EDelay 2000; ELcdClear; EDelay 10] /\
    Forall poll_or_pause es.
Proof.
  assert (1 < 5)%nat as Hlt by lia.
  refine (conj Hlt (conj eq_refl (conj eq_refl _))).
  destruct (loop_makes_one_inspection 1 5 leaving_bench Hlt eq_refl)
    as (w' & Hw & H).
  cbv zeta in H.
  change (result bottleDetected leaving_bench) with true in H.
  destruct H as (es & Hs & Hes & _).
  exists w', es. split; [exact Hw|]. split; [exact Hs|exact Hes].
Defined.

Lemma only_polled_blocked (w w' : World) (es : list Event) :
  trace w' = trace w ++ es -> since w w' = es.
Proof. intros H. unfold since. by rewrite H, drop_app_length. Qed.

(** X16. While the sensor reads HIGH, the station only polls: [n] passes
    through [loop] over [n] HIGH readings consume these [n] readings and
    nothing else, pause 10 ms each, and leave the pins, the servo, the
    display and the serial line alone. *)
Theorem idle_passes_only_poll (n fuel : nat) (w : World) :
  (forall i, (i < n)%nat -> raw (ir_feed w (i + ir_n w)%nat) = HIGH) ->
  exists w', loops n fuel w = Some w' /\
             only_polled w w' /\
             ir_n w' = (n + ir_n w)%nat /\
             delays (since w w') = replicate n 10.
Proof.
  revert w. induction n as [|n IH]; intros w Hhigh.
  - exists w. split_and!; [done|apply only_polled_refl|done|].
    unfold since. by rewrite drop_all.
  - simpl loops. rewrite (loop_idle fuel w) by (apply (Hhigh 0%nat); lia).
    change (Some ?x ≫= ?f) with (f x).
    set (w1 := exec (delay 10) (exec bottleDetected w)).
    assert (only_polled w w1) as Hp1.
    { eapply only_polled_trans;
        [apply only_polled_bottleDetected|apply only_polled_delay]. }
    assert (ir_n w1 = S (ir_n w)) as Hn1
      by apply (bottleDetected_is_step w).
    assert (trace w1 = trace w ++
              [EDigitalRead IR_SENSOR_PIN (raw (ir_feed w (ir_n w)));
               EDelay 10]) as Ht1.
    { subst w1. unfold delay.
      rewrite (writes_exec _ _ _ (writes_emit _)), trace_push.
      rewrite (proj2 (exec_bottleDetected w)). by rewrite <- app_assoc. }
    destruct (IH w1) as (w' & Hw & Hp & Hn & Hd).
    { intros i Hi. destruct Hp1 as (Hf & _). rewrite Hf, Hn1.
      rewrite Nat.add_succ_r. apply (Hhigh (S i)). lia. }
    exists w'. split_and!; [done| |lia|].
    + by eapply only_polled_trans.
    + destruct Hp as (_ & _ & _ & _ & _ & _ & _ & es & Hes & _).
      rewrite (only_polled_blocked w1 w' es Hes) in Hd.
      rewrite (only_polled_blocked w w'
                 ([EDigitalRead IR_SENSOR_PIN (raw (ir_feed w (ir_n w)));
                   EDelay 10] ++ es)); last first.
      { by rewrite Hes, Ht1, <- app_assoc. }
      rewrite delays_app, Hd. done.
Qed.

Lemma idle_passes_only_poll_witness :
  (forall i, (i < 3)%nat ->
     raw (ir_feed dry_bench (i + ir_n dry_bench)%nat) = HIGH) /\
  exists w', loops 3 10 dry_bench = Some w' /\
             ir_n w' = (3 + ir_n dry_bench)%nat.
Proof.
  assert (forall i, (i < 3)%nat ->
            raw (ir_feed dry_bench (i + ir_n dry_bench)%nat) = HIGH) as H
    by done.
  split; [exact H|].
  destruct (idle_passes_only_poll 3 10 dry_bench H) as (w' & Hw & _ & Hn & _).
  exists w'. by split.
Defined.

(** ** Measured heights and sampled readings *)

Lemma height_seen_number (w : World) : F32.is_nan (height_seen w) = false.
Proof.
  unfold height_seen, max_macro. cbv zeta.
  set (a := F32.sub _ _).
  assert (F32.is_nan a = false) as Ha.
  { apply F32Facts.sub_number; [by eexists _, _, _|].
    apply F32Facts.div_number; [|by eexists _, _, _].
    apply F32Facts.mul_number; [|by eexists _, _, _].
    apply F32Facts.of_Z_number. }
  by destruct (F32.gtb a lit_0_0).
Qed.

(** X17. Whatever [pulseIn] returns -- even a value that is negative
    once stored in [long duration] -- the height [measureBottleHeight]
    returns is a number, never NaN, and never below 0.0; so the size
    [inspectBottle] shows for it is "Small" exactly when it is at most
    15.0, "Medium" exactly when it is above 15.0 and at most 25.0, and
    "Large" exactly when it is above 25.0. *)
Theorem measured_height_is_classified (w : World) :
  let h := result measureBottleHeight w in
  F32.is_nan h = false /\
  F32.ltb h lit_0_0 = false /\
  (classifyBottleSize h = "Small" <-> F32.leb h SMALL_MAX = true) /\
  (classifyBottleSize h = "Medium" <->
     F32.ltb SMALL_MAX h = true /\ F32.leb h MEDIUM_MAX = true) /\
  (classifyBottleSize h = "Large" <-> F32.ltb MEDIUM_MAX h = true).
Proof.
  cbv zeta. rewrite result_measureBottleHeight.
  pose proof (height_seen_number w) as Hh.
  assert (F32.ltb (height_seen w) lit_0_0 = false) as Hpos.
  { unfold height_seen, max_macro, F32.gtb. cbv zeta.
    set (a := F32.sub _ _). fold (F32.ltb lit_0_0 a).
    destruct (F32.ltb lit_0_0 a) eqn:E; [|done].
    destruct (F32.ltb a lit_0_0) eqn:E'; [|done].
    unfold F32.ltb, SFltb in E, E'.
    destruct (SFcompare lit_0_0 a) as [c|] eqn:Ec; [|done].
    rewrite (F32Facts.compare_swap _ _ _ Ec) in E'. by destruct c. }
  generalize dependent (height_seen w). intros h Hh Hpos.
  pose proof (F32Facts.leb_false_ltb h SMALL_MAX Hh eq_refl) as Hsmall.
  pose proof (F32Facts.leb_false_ltb h MEDIUM_MAX Hh eq_refl) as Hmedium.
  pose proof (above_medium_not_small h) as Habove.
  unfold classifyBottleSize.
  destruct (F32.leb h SMALL_MAX) eqn:E1;
    [|destruct (F32.leb h MEDIUM_MAX) eqn:E2];
    split_and!; try done; split; try done.
  - intros [H _]. apply Hsmall in H. congruence.
  - intros H. apply Habove in H. congruence.
  - intros _. split; [by apply Hsmall | done].
  - intros H. apply Hmedium in H. congruence.
  - by intros [_ ?].
  - intros _. by apply Hmedium.
Qed.

Lemma sum_Z_bounds (lo hi : Z) (vs : list Z) :
  Forall (fun v => lo <= v <= hi) vs ->
  lo * Z.of_nat (length vs) <= sum_Z vs <= hi * Z.of_nat (length vs).
Proof.
  unfold sum_Z. induction 1 as [|v vs Hv _ IH]; simpl; [lia|].
  rewrite Nat2Z.inj_succ. lia.
Qed.

Lemma water_seen_exact (w : World) :
  Forall adc_range (upcoming_adc 5 w) ->
  water_seen w = bool_decide (sum_Z (upcoming_adc 5 w) ÷ 5 > 500) /\
  0 <= sum_Z (upcoming_adc 5 w) <= 5115.
Proof.
  intros Hrange. unfold water_seen.
  destruct (accumulate_exact (upcoming_adc 5 w) 0 Hrange) as [-> Hsum];
    [lia|rewrite upcoming_adc_length; lia|].
  rewrite upcoming_adc_length in Hsum. rewrite Z.add_0_l.
  assert (0 <= sum_Z (upcoming_adc 5 w) ÷ 5 <= 1023) as Hq.
  { split; [apply Z.quot_pos; lia|]. apply Z.quot_le_upper_bound; lia. }
  rewrite int16_small by lia. split; [done|lia].
Qed.

(** X18. For ADC readings, [checkWaterPresence] returns true exactly when
    the five readings sum to at least 2505, the average being truncated
    before it is compared: a sum of 2504, a mean of 500.8, still gives
    false.  Five readings that all exceed 500 give true, five readings
    that are all at most 500 give false. *)
Theorem water_decided_by_sum (w : World) :
  let samples := upcoming_adc 5 w in
  Forall adc_range samples ->
  (result checkWaterPresence w = true <-> sum_Z samples >= 2505) /\
  (Forall (fun v => v > 500) samples -> result checkWaterPresence w = true) /\
  (Forall (fun v => v <= 500) samples -> result checkWaterPresence w = false).
Proof.
  intros samples Hrange. subst samples.
  rewrite result_checkWaterPresence.
  destruct (water_seen_exact w Hrange) as [-> Hsum].
  pose proof (Z.quot_rem' (sum_Z (upcoming_adc 5 w)) 5) as Hqr.
  pose proof (Z.rem_bound_pos (sum_Z (upcoming_adc 5 w)) 5
                ltac:(lia) ltac:(lia)) as Hr.
  assert (bool_decide (sum_Z (upcoming_adc 5 w) ÷ 5 > 500) = true <->
          sum_Z (upcoming_adc 5 w) >= 2505) as Hiff.
  { rewrite bool_decide_eq_true. lia. }
  split_and!; [exact Hiff| |].
  - intros Hall. apply Hiff.
    pose proof (sum_Z_bounds 501 1023 (upcoming_adc 5 w)) as Hb.
    rewrite upcoming_adc_length in Hb.
    assert (Forall (fun v => 501 <= v <= 1023) (upcoming_adc 5 w)) as H.
    { rewrite Forall_forall in Hrange, Hall |- *. intros v Hv.
      specialize (Hrange v Hv). specialize (Hall v Hv).
      unfold adc_range in Hrange. lia. }
    specialize (Hb H). lia.
  - intros Hall. apply not_true_is_false. rewrite Hiff.
    pose proof (sum_Z_bounds 0 500 (upcoming_adc 5 w)) as Hb.
    rewrite upcoming_adc_length in Hb.
    assert (Forall (fun v => 0 <= v <= 500) (upcoming_adc 5 w)) as H.
    { rewrite Forall_forall in Hrange, Hall |- *. intros v Hv.
      specialize (Hrange v Hv). specialize (Hall v Hv).
      unfold adc_range in Hrange. lia. }
    specialize (Hb H). lia.
Qed.

Lemma water_decided_by_sum_witness :
  Forall adc_range (upcoming_adc 5 wet_bench) /\
  sum_Z (upcoming_adc 5 wet_bench) >= 2505 /\
  result checkWaterPresence wet_bench = true.
Proof.
  assert (Forall adc_range (upcoming_adc 5 wet_bench)) as Hrange.
  { repeat constructor; unfold adc_range; simpl; lia. }
  destruct (water_decided_by_sum wet_bench Hrange) as (Hiff & Hall & _).
  assert (Forall (fun v => v > 500) (upcoming_adc 5 wet_bench)) as Hwet.
  { repeat constructor; simpl; lia. }
  pose proof (Hall Hwet) as Htrue.
  refine (conj Hrange (conj _ Htrue)).
  by apply Hiff.
Defined.
